(** * neat-python, [neat/iznn/__init__.py]: Izhikevich spiking networks

    A shallow embedding of the gene distance, the neuron integrator, the
    network stepper and the phenotype builder of [neat.iznn], followed by
    the properties of the specification that were checked against it.

    Python floats are IEEE 754 binary64 values: they are modelled by the
    kernel's primitive floats, so that every definition below evaluates
    exactly as the interpreter does.  Python dictionaries are modelled as
    association lists in storage (iteration) order. *)

From Stdlib Require Import ZArith Bool List Lia Permutation Sorted.
From Stdlib Require Import Floats.
Import ListNotations.

Set Warnings "-inexact-float".
Local Open Scope float_scope.

(** ** Floating-point layer *)

Module PyFloat.

(** [x ** 2] on floats (CPython [float_pow] with exponent 2): a NaN or an
    infinite base is answered without calling [pow]; otherwise [pow] is
    called and a result out of range raises [OverflowError], which is
    [None] here.  The value of [pow(x, 2.0)] is taken to be the correctly
    rounded square. *)
Definition pow2 (x : float) : option float :=
  if is_nan x then Some x
  else if is_infinity x then Some (abs x)
  else
    let ix := abs x * abs x in
    if is_infinity ix then None else Some ix.

(** [x > y] *)
Definition gt (x y : float) : bool := y <? x.

End PyFloat.

(** ** [IZNodeGene] *)

Module IZNodeGene.

Record t := mk {
  bias : float;
  a : float;
  b : float;
  c : float;
  d : float
}.

(** [IZNodeGene.distance(self, other, config)], with [k] standing for
    [config.compatibility_weight_coefficient]. *)
Definition distance (self other : t) (k : float) : float :=
  let s := abs (a self - a other) + abs (b self - b other) +
           abs (c self - c other) + abs (d self - d other) in
  s * k.

End IZNodeGene.

(** ** Dictionaries

    A Python [dict] with integer keys, as the list of its items in storage
    order.  [set] overwrites the value of a key that is present and appends
    a new key at the end, so a dictionary built with [set] never holds a key
    twice. *)

Definition NodeKey := Z.

Module Dict.
Section Defs.
Context {V : Type}.

Definition t := list (NodeKey * V).

(** [m.get(k)] *)
Fixpoint get (k : NodeKey) (m : t) : option V :=
  match m with
  | [] => None
  | (k', x) :: m' => if Z.eqb k k' then Some x else get k m'
  end.

(** [m[k] = x] *)
Fixpoint set (k : NodeKey) (x : V) (m : t) : t :=
  match m with
  | [] => [(k, x)]
  | (k', y) :: m' =>
      if Z.eqb k k' then (k', x) :: m' else (k', y) :: set k x m'
  end.

Definition keys (m : t) : list NodeKey := map fst m.
Definition values (m : t) : list V := map snd m.
End Defs.
Arguments t : clear implicits.
End Dict.

(** [k in s] for a list or a set of keys. *)
Definition mem (k : NodeKey) (s : list NodeKey) : bool :=
  existsb (Z.eqb k) s.

(** The exceptions the modelled code can raise to its caller. *)
Inductive exn :=
| KeyError (k : NodeKey)
| AssertionError.

(** ** [IZNeuron] *)

Module IZNeuron.

Record t := mk {
  a : float;
  b : float;
  c : float;
  d : float;
  bias : float;
  inputs : list (NodeKey * float);
  v : float;
  u : float;
  fired : float;
  current : float
}.

Definition set_v (n : t) (x : float) : t :=
  mk (a n) (b n) (c n) (d n) (bias n) (inputs n) x (u n) (fired n) (current n).
Definition set_u (n : t) (x : float) : t :=
  mk (a n) (b n) (c n) (d n) (bias n) (inputs n) (v n) x (fired n) (current n).
Definition set_fired (n : t) (x : float) : t :=
  mk (a n) (b n) (c n) (d n) (bias n) (inputs n) (v n) (u n) x (current n).
Definition set_current (n : t) (x : float) : t :=
  mk (a n) (b n) (c n) (d n) (bias n) (inputs n) (v n) (u n) (fired n) x.

(** [IZNeuron.__init__] *)
Definition init (bias a b c d : float) (inputs : list (NodeKey * float)) : t :=
  let v := c in
  let u := b * v in
  mk a b c d bias inputs v u 0 bias.

(** One line [self.v += 0.5 * dt_msec * (0.04 * self.v ** 2 + 5 * self.v
    + 140 - self.u + self.current)]; [None] when [**] raises. *)
Definition half_step (dt_msec : float) (n : t) : option t :=
  match PyFloat.pow2 (v n) with
  | None => None
  | Some sq =>
      Some (set_v n (v n + 0.5 * dt_msec *
                           (0.04 * sq + 5 * v n + 140 - u n + current n)))
  end.

(** [self.u += dt_msec * self.a * (self.b * self.v - self.u)] *)
Definition recover (dt_msec : float) (n : t) : t :=
  set_u n (u n + dt_msec * a n * (b n * v n - u n)).

(** The body of the [try] block. *)
Definition integrate (dt_msec : float) (n : t) : option t :=
  match half_step dt_msec n with
  | None => None
  | Some n1 =>
      match half_step dt_msec n1 with
      | None => None
      | Some n2 => Some (recover dt_msec n2)
      end
  end.

(** The neuron as the raising line leaves it: the assignments of the
    [try] block are made on the object itself, so the first line has
    taken effect when it is the second one that raises. *)
Definition at_overflow (dt_msec : float) (n : t) : t :=
  match half_step dt_msec n with
  | None => n
  | Some n1 => n1
  end.

(** The [except OverflowError] handler. *)
Definition on_overflow (n : t) : t :=
  let n1 := set_v n (c n) in
  set_u n1 (b n1 * v n1).

(** The code after the [try] statement. *)
Definition threshold (n : t) : t :=
  let n0 := set_fired n 0 in
  if PyFloat.gt (v n0) 30 then
    let n1 := set_fired n0 1 in
    let n2 := set_v n1 (c n1) in
    set_u n2 (u n2 + d n2)
  else n0.

(** [IZNeuron.advance] *)
Definition advance (dt_msec : float) (n : t) : t :=
  match integrate dt_msec n with
  | Some n' => threshold n'
  | None => threshold (on_overflow (at_overflow dt_msec n))
  end.

(** [IZNeuron.reset] *)
Definition reset (n : t) : t :=
  let n1 := set_v n (c n) in
  let n2 := set_u n1 (b n1 * v n1) in
  let n3 := set_fired n2 0 in
  set_current n3 (bias n3).

(** Whether the [try] block of [advance] raises [OverflowError]. *)
Definition overflows (dt_msec : float) (n : t) : bool :=
  match integrate dt_msec n with
  | None => true
  | Some _ => false
  end.

End IZNeuron.

(** ** Genomes and their configuration *)

Definition ConnKey := (NodeKey * NodeKey)%type.

(** [DefaultConnectionGene], as far as [create] reads it. *)
Record DefaultConnectionGene := mkConnectionGene {
  key : ConnKey;
  weight : float;
  enabled : bool
}.

(** [IZGenome]: [nodes] maps node keys to node genes, [connections] maps
    connection keys to connection genes (its items in storage order). *)
Record IZGenome := mkIZGenome {
  nodes : Dict.t IZNodeGene.t;
  connections : list (ConnKey * DefaultConnectionGene)
}.

(** [config.genome_config] *)
Record DefaultGenomeConfig := mkGenomeConfig {
  input_keys : list NodeKey;
  output_keys : list NodeKey;
  compatibility_weight_coefficient : float
}.

(** ** [IZNN] *)

Module IZNN.

Record t := mk {
  neurons : Dict.t IZNeuron.t;
  inputs : list NodeKey;
  outputs : list NodeKey;
  input_values : Dict.t float
}.

(** [IZNN.__init__] *)
Definition init (neurons : Dict.t IZNeuron.t) (inputs outputs : list NodeKey) : t :=
  mk neurons inputs outputs [].

Definition set_neurons (self : t) (ns : Dict.t IZNeuron.t) : t :=
  mk ns (inputs self) (outputs self) (input_values self).
Definition set_input_values (self : t) (ivs : Dict.t float) : t :=
  mk (neurons self) (inputs self) (outputs self) ivs.

(** The loop [for i, v in zip(self.inputs, inputs): self.input_values[i] = v] *)
Fixpoint assign (ivs : Dict.t float) (items : list (NodeKey * float)) : Dict.t float :=
  match items with
  | [] => ivs
  | (i, v) :: items' => assign (Dict.set i v ivs) items'
  end.

(** [IZNN.set_inputs], run with assertions enabled: the network after the
    call and what the call raised, if anything. *)
Definition set_inputs (self : t) (inputs : list float) : t * option exn :=
  if Nat.eqb (length inputs) (length (IZNN.inputs self)) then
    (set_input_values self
       (assign (input_values self) (combine (IZNN.inputs self) inputs)), None)
  else (self, Some AssertionError).

(** [IZNN.reset] *)
Definition reset (self : t) : t :=
  set_neurons self (map (fun kn => (fst kn, IZNeuron.reset (snd kn))) (neurons self)).

(** [IZNN.get_time_step_msec] *)
Definition get_time_step_msec (self : t) : float := 0.05.

(** Lines 175-179 of [advance]: the value read for source key [i]. *)
Definition source_value (neurons : Dict.t IZNeuron.t) (input_values : Dict.t float)
    (i : NodeKey) : exn + float :=
  match Dict.get i neurons with
  | Some ineuron => inr (IZNeuron.fired ineuron)
  | None =>
      match Dict.get i input_values with
      | Some x => inr x
      | None => inl (KeyError i)
      end
  end.

(** The inner loop [for i, w in n.inputs] for the neuron [n] stored under
    [k].  The neurons are shared objects: the dictionary that
    [self.neurons.get] reads is [done ++ (k, n) :: todo], in which [n] is
    the neuron being updated.  Returns [n] as the loop leaves it, and
    the exception that stopped it, if any. *)
Fixpoint add_inputs (done todo : Dict.t IZNeuron.t) (input_values : Dict.t float)
    (k : NodeKey) (n : IZNeuron.t) (ins : list (NodeKey * float))
    : IZNeuron.t * option exn :=
  match ins with
  | [] => (n, None)
  | (i, w) :: ins' =>
      match source_value (done ++ (k, n) :: todo) input_values i with
      | inl e => (n, Some e)
      | inr ivalue =>
          add_inputs done todo input_values k
            (IZNeuron.set_current n (IZNeuron.current n + ivalue * w)) ins'
      end
  end.

(** The first loop of [advance] over [itervalues(self.neurons)]: [done]
    holds the neurons already visited, [todo] those still to visit. *)
Fixpoint compute_currents (done todo : Dict.t IZNeuron.t) (input_values : Dict.t float)
    : Dict.t IZNeuron.t * option exn :=
  match todo with
  | [] => (done, None)
  | (k, n) :: todo' =>
      let n0 := IZNeuron.set_current n (IZNeuron.bias n) in
      match add_inputs done todo' input_values k n0 (IZNeuron.inputs n0) with
      | (n1, Some e) => (done ++ (k, n1) :: todo', Some e)
      | (n1, None) => compute_currents (done ++ [(k, n1)]) todo' input_values
      end
  end.

(** The second loop of [advance]. *)
Definition advance_all (dt_msec : float) (ns : Dict.t IZNeuron.t) : Dict.t IZNeuron.t :=
  map (fun kn => (fst kn, IZNeuron.advance dt_msec (snd kn))) ns.

(** [[self.neurons[i].fired for i in self.outputs]] *)
Fixpoint collect (ns : Dict.t IZNeuron.t) (outs : list NodeKey) : exn + list float :=
  match outs with
  | [] => inr []
  | i :: outs' =>
      match Dict.get i ns with
      | None => inl (KeyError i)
      | Some n =>
          match collect ns outs' with
          | inl e => inl e
          | inr l => inr (IZNeuron.fired n :: l)
          end
      end
  end.

(** [IZNN.advance]: the network as the call leaves it, and the list it
    returns or the exception it raises. *)
Definition advance (dt_msec : float) (self : t) : t * (exn + list float) :=
  match compute_currents [] (neurons self) (input_values self) with
  | (ns, Some e) => (set_neurons self ns, inl e)
  | (ns, None) =>
      let ns' := advance_all dt_msec ns in
      (set_neurons self ns', collect ns' (outputs self))
  end.

Section Create.

(** [neat.graphs.required_for_output] is imported by the module and is
    not part of it: [create] is modelled for any such function.  It
    returns a set, given here by its elements in iteration order. *)
Variable required_for_output :
  list NodeKey -> list NodeKey -> list (ConnKey * DefaultConnectionGene) -> list NodeKey.

(** One round of the loop [for cg in itervalues(genome.connections)]. *)
Definition gather_one (required : list NodeKey)
    (node_inputs : Dict.t (list (NodeKey * float))) (cg : DefaultConnectionGene)
    : Dict.t (list (NodeKey * float)) :=
  if negb (enabled cg) then node_inputs
  else
    let (i, o) := key cg in
    if negb (mem o required) && negb (mem i required) then node_inputs
    else
      match Dict.get o node_inputs with
      | None => Dict.set o [(i, weight cg)] node_inputs
      | Some l => Dict.set o (l ++ [(i, weight cg)]) node_inputs
      end.

Definition gather (required : list NodeKey) (cgs : list DefaultConnectionGene)
    : Dict.t (list (NodeKey * float)) :=
  fold_left (gather_one required) cgs [].

(** The loop [for node_key in required]. *)
Fixpoint build (genome : IZGenome) (node_inputs : Dict.t (list (NodeKey * float)))
    (required : list NodeKey) (neurons : Dict.t IZNeuron.t)
    : exn + Dict.t IZNeuron.t :=
  match required with
  | [] => inr neurons
  | node_key :: required' =>
      match Dict.get node_key (nodes genome) with
      | None => inl (KeyError node_key)
      | Some ng =>
          let inputs :=
            match Dict.get node_key node_inputs with
            | Some l => l
            | None => []
            end in
          build genome node_inputs required'
            (Dict.set node_key
               (IZNeuron.init (IZNodeGene.bias ng) (IZNodeGene.a ng) (IZNodeGene.b ng)
                  (IZNodeGene.c ng) (IZNodeGene.d ng) inputs)
               neurons)
      end
  end.

(** [IZNN.create] *)
Definition create (genome : IZGenome) (genome_config : DefaultGenomeConfig)
    : exn + t :=
  let required :=
    required_for_output (input_keys genome_config) (output_keys genome_config)
      (connections genome) in
  let node_inputs := gather required (map snd (connections genome)) in
  match build genome node_inputs required [] with
  | inl e => inl e
  | inr neurons =>
      inr (init neurons (input_keys genome_config) (output_keys genome_config))
  end.

End Create.

End IZNN.

(** ** The integration step as the specification words it *)

Module Spec.

(** [v + 0.5·dt·(0.04·v² + 5·v + 140 − u + current)], with [sq] the value
    of [v²]. *)
Definition half_step (dt vv sq uu cur : float) : float :=
  vv + 0.5 * dt * (0.04 * sq + 5 * vv + 140 - uu + cur).

(** The membrane potential after the two half-steps, [sq0] and [sq1]
    being the two squares. *)
Definition integrated_v (dt : float) (n : IZNeuron.t) (sq0 sq1 : float) : float :=
  let v1 := half_step dt (IZNeuron.v n) sq0 (IZNeuron.u n) (IZNeuron.current n) in
  half_step dt v1 sq1 (IZNeuron.u n) (IZNeuron.current n).

(** [u + dt·a·(b·v − u)] with the integrated [v]. *)
Definition integrated_u (dt : float) (n : IZNeuron.t) (sq0 sq1 : float) : float :=
  IZNeuron.u n +
  dt * IZNeuron.a n * (IZNeuron.b n * integrated_v dt n sq0 sq1 - IZNeuron.u n).

(** Spike-and-reset when the integrated [v] exceeds 30, else the
    integrated values stand. *)
Definition advance (dt : float) (n : IZNeuron.t) (sq0 sq1 : float) : IZNeuron.t :=
  let v2 := integrated_v dt n sq0 sq1 in
  let u2 := integrated_u dt n sq0 sq1 in
  if PyFloat.gt v2 30 then
    IZNeuron.mk (IZNeuron.a n) (IZNeuron.b n) (IZNeuron.c n) (IZNeuron.d n)
      (IZNeuron.bias n) (IZNeuron.inputs n)
      (IZNeuron.c n) (u2 + IZNeuron.d n) 1 (IZNeuron.current n)
  else
    IZNeuron.mk (IZNeuron.a n) (IZNeuron.b n) (IZNeuron.c n) (IZNeuron.d n)
      (IZNeuron.bias n) (IZNeuron.inputs n)
      v2 u2 0 (IZNeuron.current n).


(** *** The first phase of [Network.advance], read off a snapshot

    The specification computes every current from the state at the end
    of the previous step.  [sum_inputs] and [currents] are the two loops
    of the first phase with every read made in the snapshot [snapshot]
    of the neurons taken when the call starts. *)

(** The value of source key [i]: if [i] is the key of a neuron of the
    network, the [fired] value that neuron had at the end of the previous
    step, which is the one the snapshot holds; otherwise the value
    supplied for [i] in [input_values], if there is one. *)
Definition source (snapshot : Dict.t IZNeuron.t) (input_values : Dict.t float)
    (i : NodeKey) : option float :=
  match Dict.get i snapshot with
  | Some neuron => Some (IZNeuron.fired neuron)
  | None => Dict.get i input_values
  end.

(** [acc] plus, for each [(source, weight)] in turn, the weight times the
    value of the source; stops with a lookup error for the first source
    without a value. *)
Fixpoint sum_inputs (snapshot : Dict.t IZNeuron.t) (input_values : Dict.t float)
    (acc : float) (ins : list (NodeKey * float)) : float * option exn :=
  match ins with
  | [] => (acc, None)
  | (i, w) :: ins' =>
      match source snapshot input_values i with
      | None => (acc, Some (KeyError i))
      | Some x => sum_inputs snapshot input_values (acc + w * x) ins'
      end
  end.

(** The current of neuron [n]: bias plus the weighted sources. *)
Definition frozen_current (snapshot : Dict.t IZNeuron.t) (input_values : Dict.t float)
    (n : IZNeuron.t) : float * option exn :=
  sum_inputs snapshot input_values (IZNeuron.bias n) (IZNeuron.inputs n).

Fixpoint currents (snapshot : Dict.t IZNeuron.t) (input_values : Dict.t float)
    (todo : Dict.t IZNeuron.t) : Dict.t IZNeuron.t * option exn :=
  match todo with
  | [] => ([], None)
  | (k, n) :: todo' =>
      match frozen_current snapshot input_values n with
      | (acc, Some e) => ((k, IZNeuron.set_current n acc) :: todo', Some e)
      | (acc, None) =>
          let (r, e) := currents snapshot input_values todo' in
          ((k, IZNeuron.set_current n acc) :: r, e)
      end
  end.

(** What the first phase may read of the other neurons: keys and [fired]. *)
Definition fired_view (ns : Dict.t IZNeuron.t) : list (NodeKey * float) :=
  map (fun kn => (fst kn, IZNeuron.fired (snd kn))) ns.

(** Two neurons that differ at most in [current]. *)
Definition same_but_current (n n' : IZNeuron.t) : Prop :=
  IZNeuron.set_current n' (IZNeuron.current n) = n.

(** Two dictionaries with the same keys in the same order whose neurons
    differ at most in [current]. *)
Definition up_to_current (ns ns' : Dict.t IZNeuron.t) : Prop :=
  Forall2 (fun kn kn' => fst kn' = fst kn /\ same_but_current (snd kn) (snd kn')) ns ns'.

(** The specification's step of one stored neuron: freeze the current,
    then advance. *)
Definition step_neuron (dt : float) (snapshot : Dict.t IZNeuron.t)
    (input_values : Dict.t float) (kn : NodeKey * IZNeuron.t) : NodeKey * IZNeuron.t :=
  (fst kn,
   IZNeuron.advance dt
     (IZNeuron.set_current (snd kn) (fst (frozen_current snapshot input_values (snd kn))))).

(** A source key that has a value: a neuron of the network or a supplied
    input. *)
Definition bound (ns : Dict.t IZNeuron.t) (input_values : Dict.t float)
    (i : NodeKey) : Prop :=
  Dict.get i ns <> None \/ Dict.get i input_values <> None.

(** The fields that [IZNeuron.advance] never writes. *)
Definition static (n : IZNeuron.t) :=
  (IZNeuron.a n, IZNeuron.b n, IZNeuron.c n, IZNeuron.d n,
   IZNeuron.bias n, IZNeuron.inputs n, IZNeuron.current n).

(** The state the specification prescribes after an overflow. *)
Definition after_overflow (n : IZNeuron.t) : IZNeuron.t :=
  IZNeuron.mk (IZNeuron.a n) (IZNeuron.b n) (IZNeuron.c n) (IZNeuron.d n)
    (IZNeuron.bias n) (IZNeuron.inputs n)
    (IZNeuron.c n) (IZNeuron.b n * IZNeuron.c n) 0 (IZNeuron.current n).

(** *** The phenotype builder *)

(** Whether connection gene [cg] is expressed in the input list of node
    [k]: enabled, an endpoint in [required], and [k] as destination. *)
Definition expressed (required : list NodeKey) (k : NodeKey)
    (cg : DefaultConnectionGene) : bool :=
  enabled cg &&
  (mem (snd (key cg)) required || mem (fst (key cg)) required) &&
  Z.eqb (snd (key cg)) k.

(** The [(source, weight)] pairs of the connections expressed at [k], in
    the order of the connection collection, duplicates kept. *)
Definition expressed_inputs (required : list NodeKey) (cgs : list DefaultConnectionGene)
    (k : NodeKey) : list (NodeKey * float) :=
  map (fun cg => (fst (key cg), weight cg)) (filter (expressed required k) cgs).

(** The neuron built for node key [k], if the genome has a node gene for it. *)
Definition neuron_of (genome : IZGenome) (node_inputs : Dict.t (list (NodeKey * float)))
    (k : NodeKey) : option IZNeuron.t :=
  match Dict.get k (nodes genome) with
  | None => None
  | Some ng =>
      Some (IZNeuron.init (IZNodeGene.bias ng) (IZNodeGene.a ng) (IZNodeGene.b ng)
              (IZNodeGene.c ng) (IZNodeGene.d ng)
              (match Dict.get k node_inputs with Some l => l | None => [] end))
  end.

(** A list as [dict.get] reports it in [node_inputs]: a key is present
    exactly when something was appended under it. *)
Definition nonempty {A} (l : list A) : option (list A) :=
  match l with
  | [] => None
  | _ => Some l
  end.

(** One backward round: the sources of the connections into [reached]
    that are not reached yet. *)
Definition sources_into (conns : list ConnKey) (reached : list NodeKey) : list NodeKey :=
  nodup Z.eq_dec
    (filter (fun a => negb (mem a reached))
       (map fst (filter (fun ab => mem (snd ab) reached) conns))).

Fixpoint backward (rounds : nat) (conns : list ConnKey) (reached : list NodeKey)
    : list NodeKey :=
  match rounds with
  | O => reached
  | S rounds' => backward rounds' conns (reached ++ sources_into conns reached)
  end.

(** Modelled from the spec: [neat.graphs.required_for_output] is imported
    by the module and is not among the sources.  Its contract (section 6)
    is: the output keys, plus every node key with a path to an output key
    through enabled connections, followed backward from the outputs; an
    input key is never included unless it is also an output key.  One
    round per connection reaches every such node. *)
Definition required_for_output (inputs outputs : list NodeKey)
    (connections : list (ConnKey * DefaultConnectionGene)) : list NodeKey :=
  let enabled_keys :=
    map (fun kc => key (snd kc)) (filter (fun kc => enabled (snd kc)) connections) in
  filter (fun k => mem k outputs || negb (mem k inputs))
    (backward (length connections) enabled_keys (nodup Z.eq_dec outputs)).

End Spec.

(** ** Binary64 values on [spec_float] *)

Module Binary64.

(** [2.0] *)
Definition two_sf : spec_float := S754_finite false 4503599627370496 (-51)%Z.

(** The smallest positive normal number, [2^-1022]. *)
Definition min_normal : spec_float := S754_finite false 4503599627370496 (-1074)%Z.

(** Twice a normal number: the exponent moves up by one, or the result
    overflows. *)
Definition SFdouble (x : spec_float) : spec_float :=
  match x with
  | S754_finite s m e =>
      if (e + 1 <=? 971)%Z then S754_finite s m (e + 1)%Z else S754_infinity s
  | _ => x
  end.

(** The last step of [binary_round_aux]: the float of a rounded mantissa
    and its exponent. *)
Definition finish (sx : bool) (me : shr_record * Z) : spec_float :=
  match shr_m (fst me) with
  | Z0 => S754_zero sx
  | Zpos m => if (snd me <=? 971)%Z then S754_finite sx m (snd me) else S754_infinity sx
  | Zneg _ => S754_nan
  end.

Definition SFis_finite (x : spec_float) : bool :=
  match x with
  | S754_zero _ | S754_finite _ _ _ => true
  | _ => false
  end.

End Binary64.

(** ** Concrete neurons and networks *)

Module Examples.

(** Scenario A: regular spiking parameters, no bias, no inputs. *)
Definition regular_spiking : IZNeuron.t :=
  IZNeuron.init 0 0.02 0.20 (-65.0) 8.00 [].

(** A neuron whose reset potential lies above the spike threshold,
    driven by a bias large enough for the second square to overflow. *)
Definition high_reset : IZNeuron.t :=
  IZNeuron.init 1e200 0.02 0.2 40.0 8.0 [].

(** Scenario C: input key -1 feeds neuron 0, which also feeds itself. *)
Definition driven : IZNN.t :=
  IZNN.mk [(0%Z, IZNeuron.init 0 0.02 0.20 (-65.0) 8.00 [((-1)%Z, 1.0); (0%Z, 0.5)])]
          [(-1)%Z] [0%Z] [((-1)%Z, 10.0)].

(** A network whose neuron 0 reads the keys -1 and -2 while only -1 has
    been supplied. *)
Definition half_bound : IZNN.t :=
  IZNN.mk [(0%Z, IZNeuron.init 1 0.02 0.20 (-65.0) 8.00 [((-1)%Z, 1.0); ((-2)%Z, 1.0)])]
          [(-1)%Z; (-2)%Z] [0%Z] [((-1)%Z, 5.0)].

(** Scenario B: inputs -1 and -2, output 0, an enabled connection from -1
    to 0 and a disabled one from -2 to 0, both of weight 1.0. *)
Definition pruning_gene : IZNodeGene.t := IZNodeGene.mk 0 0.02 0.20 (-65.0) 8.00.

Definition pruning_genome : IZGenome :=
  mkIZGenome [(0%Z, pruning_gene)]
    [(((-1)%Z, 0%Z), mkConnectionGene ((-1)%Z, 0%Z) 1.0 true);
     (((-2)%Z, 0%Z), mkConnectionGene ((-2)%Z, 0%Z) 1.0 false)].

Definition pruning_config : DefaultGenomeConfig :=
  mkGenomeConfig [(-1)%Z; (-2)%Z] [0%Z] 1.0.

(** Node genes with the regular-spiking and the fast-spiking parameters. *)
Definition regular_gene : IZNodeGene.t := IZNodeGene.mk 0 0.02 0.20 (-65.0) 8.00.
Definition fast_gene : IZNodeGene.t := IZNodeGene.mk 0 0.10 0.20 (-65.0) 2.00.

(** Two genes that differ by 0.5 in [a] only. *)
Definition half_gene : IZNodeGene.t := IZNodeGene.mk 0 0.5 0.20 (-65.0) 8.00.
Definition zero_gene : IZNodeGene.t := IZNodeGene.mk 0 0 0.20 (-65.0) 8.00.

(** A regular-spiking neuron driven by a bias large enough for the second
    square to overflow. *)
Definition overdriven : IZNeuron.t :=
  IZNeuron.init 1e200 0.02 0.20 (-65.0) 8.00 [].

(** The Scenario C network with a second output key, 7, that names no
    neuron. *)
Definition stray_output : IZNN.t :=
  IZNN.mk (IZNN.neurons driven) [(-1)%Z] [0%Z; 7%Z] [((-1)%Z, 10.0)].

(** The Scenario C network before any input has been supplied. *)
Definition unfed : IZNN.t :=
  IZNN.init (IZNN.neurons driven) [(-1)%Z] [0%Z].

(** A genome whose connection from node 1 makes node 1 required, while
    the genome has no node gene for it. *)
Definition dangling_genome : IZGenome :=
  mkIZGenome [(0%Z, pruning_gene)]
    [((1%Z, 0%Z), mkConnectionGene (1%Z, 0%Z) 1.0 true)].

(** Two networks of two cells: cell 0 reads cell 1, and cell 1 differs
    between the two in everything but its key and its [fired] flag. *)
Definition two_cells : IZNN.t :=
  IZNN.mk [(0%Z, IZNeuron.init 0 0.02 0.20 (-65.0) 8.00 [(1%Z, 1.0)]);
           (1%Z, IZNeuron.init 5 0.02 0.20 (-65.0) 8.00 [])]
          [] [0%Z] [].

Definition two_cells_shifted : IZNN.t :=
  IZNN.mk [(0%Z, IZNeuron.init 0 0.02 0.20 (-65.0) 8.00 [(1%Z, 1.0)]);
           (1%Z, IZNeuron.init 9 0.10 0.25 (-50.0) 2.00 [])]
          [] [0%Z] [].

End Examples.

(** ** [StatisticsReporter] ([neat/statistics.py])

    The reporter reads of a genome its [key] and its [fitness] only, and of
    a species set the dictionary [species.species] of its species, each
    with the dictionary [members] of its genomes.  [copy.deepcopy] is the
    identity on values.  The functions of [neat.math_util] are taken as
    parameters where they are called. *)

Module Statistics.

(** The exceptions raised by the built-ins [max] and indexing. *)
Inductive error :=
| ValueError
| IndexError.

(** An entry of a species-fitness row: a number or the null value. *)
Inductive cell (N : Type) :=
| Number (x : float)
| Null (s : N).
Arguments Number {N} x.
Arguments Null {N} s.

(** [max(s)] for a set [s] of integers. *)
Definition max_of (l : list Z) : option Z :=
  match l with
  | [] => None
  | x :: l' => Some (fold_left Z.max l' x)
  end.

(** [range(1, m + 1)] *)
Definition range_from_1 (m : Z) : list Z := map Z.of_nat (seq 1 (Z.to_nat m)).

(** [s.union(keys)] for sets given by their elements. *)
Definition union (s keys : list Z) : list Z :=
  s ++ filter (fun k => negb (mem k s)) (nodup Z.eq_dec keys).

(** [l[:n]] *)
Definition slice_to {A} (n : Z) (l : list A) : list A :=
  if (n <? 0)%Z then firstn (Z.to_nat (Z.of_nat (length l) + n)) l
  else firstn (Z.to_nat n) l.

(** [dict(items)] *)
Definition dict_of {V} (items : list (Z * V)) : Dict.t V :=
  fold_left (fun m kv => Dict.set (fst kv) (snd kv) m) items [].

Section Reporter.

Variable Genome : Type.
Variable genome_key : Genome -> Z.
Variable fitness : Genome -> float.

Record t := mk {
  most_fit_genomes : list Genome;
  generation_statistics : list (Dict.t (Dict.t float))
}.

(** [StatisticsReporter.__init__] *)
Definition init : t := mk [] [].

(** [dict((k, v.fitness) for k, v in iteritems(s.members))] *)
Definition member_fitness (members : Dict.t Genome) : Dict.t float :=
  dict_of (map (fun kv => (fst kv, fitness (snd kv))) members).

(** The loop of [post_evaluate] over [iteritems(species.species)]. *)
Definition species_stats (species : Dict.t (Dict.t Genome)) : Dict.t (Dict.t float) :=
  fold_left (fun stats sm => Dict.set (fst sm) (member_fitness (snd sm)) stats) species [].

(** [StatisticsReporter.post_evaluate] *)
Definition post_evaluate (self : t) (species : Dict.t (Dict.t Genome))
    (best_genome : Genome) : t :=
  mk (most_fit_genomes self ++ [best_genome])
     (generation_statistics self ++ [species_stats species]).

(** The list [scores] that [get_fitness_stat] builds for one generation. *)
Definition scores (stats : Dict.t (Dict.t float)) : list float :=
  flat_map (fun species_stats => Dict.values species_stats) (Dict.values stats).

(** [StatisticsReporter.get_fitness_stat], for a statistic [f] that
    returns a value or raises. *)
Fixpoint fitness_stat {E A} (f : list float -> E + A)
    (generations : list (Dict.t (Dict.t float))) : E + list A :=
  match generations with
  | [] => inr []
  | stats :: generations' =>
      match f (scores stats) with
      | inl e => inl e
      | inr x =>
          match fitness_stat f generations' with
          | inl e => inl e
          | inr l => inr (x :: l)
          end
      end
  end.

Definition get_fitness_stat {E A} (self : t) (f : list float -> E + A) : E + list A :=
  fitness_stat f (generation_statistics self).

(** The set [all_species] of [get_species_sizes] and [get_species_fitness]. *)
Definition all_species (self : t) : list Z :=
  fold_left (fun s gen_data => union s (Dict.keys gen_data)) (generation_statistics self) [].

(** [StatisticsReporter.get_species_sizes] *)
Definition get_species_sizes (self : t) : error + list (list nat) :=
  match max_of (all_species self) with
  | None => inl ValueError
  | Some max_species =>
      inr (map (fun gen_data =>
                  map (fun sid =>
                         match Dict.get sid gen_data with
                         | Some members => length members
                         | None => O
                         end)
                      (range_from_1 max_species))
               (generation_statistics self))
  end.

(** [StatisticsReporter.get_species_fitness]; [mean] is
    [neat.math_util.mean], applied to the dictionary stored for the
    species. *)
Definition get_species_fitness {N} (mean : Dict.t float -> float) (self : t)
    (null_value : N) : error + list (list (cell N)) :=
  match max_of (all_species self) with
  | None => inl ValueError
  | Some max_species =>
      inr (map (fun gen_data =>
                  map (fun sid =>
                         match Dict.get sid gen_data with
                         | Some ((_ :: _) as mf) => Number (mean mf)
                         | _ => Null null_value
                         end)
                      (range_from_1 max_species))
               (generation_statistics self))
  end.

(** [sorted(l, key=fitness, reverse=True)]: the sort is stable, so a
    genome goes before those that are not strictly fitter.  This is the
    list Python returns when no fitness is a NaN; with a NaN among the
    keys the comparisons are not an order and the result of Python's sort
    is not modelled. *)
Fixpoint insert_desc (g : Genome) (l : list Genome) : list Genome :=
  match l with
  | [] => [g]
  | h :: l' => if fitness g <? fitness h then h :: insert_desc g l' else g :: l
  end.

Definition sorted_desc (l : list Genome) : list Genome :=
  fold_right insert_desc [] l.

(** [StatisticsReporter.best_genomes] *)
Definition best_genomes (self : t) (n : Z) : list Genome :=
  slice_to n (sorted_desc (most_fit_genomes self)).

(** [StatisticsReporter.best_genome] *)
Definition best_genome (self : t) : error + Genome :=
  match best_genomes self 1 with
  | [] => inl IndexError
  | g :: _ => inr g
  end.

(** [StatisticsReporter.best_unique_genomes] *)
Definition best_unique_genomes (self : t) (n : Z) : list Genome :=
  let best_unique :=
    fold_left (fun m g => Dict.set (genome_key g) g m) (most_fit_genomes self) [] in
  slice_to n (sorted_desc (Dict.values best_unique)).

End Reporter.

End Statistics.

Module Histories.

(** Genomes as pairs of a key and a fitness, and a short history: the best
    genomes of three generations, the second and third with the same key. *)
Definition history : Statistics.t (Z * float) :=
  Statistics.post_evaluate (Z * float) snd
    (Statistics.post_evaluate (Z * float) snd
       (Statistics.post_evaluate (Z * float) snd (Statistics.init (Z * float))
          [(1%Z, [(10%Z, (10%Z, 1.5)); (11%Z, (11%Z, 0.5))])] (10%Z, 1.5))
       [(1%Z, [(10%Z, (10%Z, 1.5))]); (3%Z, [(12%Z, (12%Z, 4.0)); (13%Z, (13%Z, 2.0))])]
       (12%Z, 4.0))
    [(3%Z, [(12%Z, (12%Z, 2.5))])] (12%Z, 2.5).

(** The species of one generation: two species, three members. *)
Definition generation : Dict.t (Dict.t (Z * float)) :=
  [(1%Z, [(10%Z, (10%Z, 1.5)); (11%Z, (11%Z, 0.5))]); (2%Z, [(12%Z, (12%Z, 4.0))])].

(** A statistic that raises on an empty list: the first score. *)
Definition first_score (scores : list float) : unit + float :=
  match scores with
  | [] => inl tt
  | x :: _ => inr x
  end.

End Histories.

(** The place of a non-NaN binary64 value in the order of [SFcompare]:
    its class (from minus infinity, -2, to plus infinity, 2), then exponent
    and mantissa, negated for negative numbers. *)
Definition SFrank (x : spec_float) : Z * Z * Z :=
  match x with
  | S754_nan => (0, 0, 0)%Z
  | S754_zero _ => (0, 0, 0)%Z
  | S754_infinity true => (-2, 0, 0)%Z
  | S754_infinity false => (2, 0, 0)%Z
  | S754_finite true m e => (-1, - e, - Z.pos m)%Z
  | S754_finite false m e => (1, e, Z.pos m)%Z
  end.

(** The lexicographic order on ranks. *)
Definition rank_lt (p q : Z * Z * Z) : Prop :=
  let '(a1, a2, a3) := p in
  let '(b1, b2, b3) := q in
  (a1 < b1 \/ (a1 = b1 /\ (a2 < b2 \/ (a2 = b2 /\ a3 < b3))))%Z.

(** ** Notions used by the further properties *)

(** The fields of a neuron that are set at construction and never again. *)
Definition params (n : IZNeuron.t) :=
  (IZNeuron.a n, IZNeuron.b n, IZNeuron.c n, IZNeuron.d n,
   IZNeuron.bias n, IZNeuron.inputs n).

(** Two dictionary items with the same key and the same parameters. *)
Definition same_params (kn kn' : NodeKey * IZNeuron.t) : Prop :=
  fst kn' = fst kn /\ params (snd kn') = params (snd kn).

(** A spike flag: 0.0 or 1.0. *)
Definition binary (x : float) : Prop := x = 0 \/ x = 1.

(** The value that a sequence of assignments leaves under key [k]: that of
    the last item with this key, if there is one. *)
Fixpoint last_value (k : NodeKey) (items : list (NodeKey * float)) : option float :=
  match items with
  | [] => None
  | (i, x) :: items' =>
      match last_value k items' with
      | Some y => Some y
      | None => if Z.eqb k i then Some x else None
      end
  end.

(** [a] is not strictly less fit than [b]. *)
Definition not_less_fit {G} (fitness : G -> float) (a b : G) : Prop :=
  (fitness a <? fitness b) = false.

(** [g] is the genome recorded last under its key in [l]. *)
Definition last_with_key {G} (genome_key : G -> Z) (l : list G) (g : G) : Prop :=
  exists l1 l2, l = l1 ++ g :: l2 /\ forall h, In h l2 -> genome_key h <> genome_key g.

Import Spec(static).

(** * Properties *)

(** ** [IZNeuron] *)

Lemma float_one_neq_zero : (1 : float) <> 0.
Proof.
  intro H. apply (f_equal (fun x => PrimFloat.eqb x 0)) in H.
  vm_compute in H. discriminate H.
Qed.

Lemma SFmul_comm x y : SF64mul x y = SF64mul y x.
Proof.
  unfold SF64mul, SFmul.
  destruct x as [sx|sx| |sx mx ex], y as [sy|sy| |sy my ey];
    try reflexivity; rewrite (xorb_comm sx sy); try reflexivity.
  now rewrite (Pos.mul_comm mx my), (Z.add_comm ex ey).
Qed.

(** Multiplication of floats is commutative. *)
Lemma float_mul_comm (x y : float) : x * y = y * x.
Proof. apply Prim2SF_inj. rewrite !mul_spec. apply SFmul_comm. Qed.

Lemma threshold_static n : static (IZNeuron.threshold n) = static n.
Proof.
  unfold IZNeuron.threshold, PyFloat.gt. cbn.
  destruct (30 <? IZNeuron.v n); reflexivity.
Qed.

Lemma half_step_static dt n n' :
  IZNeuron.half_step dt n = Some n' ->
  n' = IZNeuron.set_v n (IZNeuron.v n').
Proof.
  unfold IZNeuron.half_step.
  destruct (PyFloat.pow2 (IZNeuron.v n)); intros E; inversion E; reflexivity.
Qed.

(** [advance] only writes [v], [u] and [fired]. *)
Lemma advance_static dt n : static (IZNeuron.advance dt n) = static n.
Proof.
  unfold IZNeuron.advance, IZNeuron.integrate, IZNeuron.at_overflow.
  destruct (IZNeuron.half_step dt n) as [n1|] eqn:E1.
  - apply half_step_static in E1.
    destruct (IZNeuron.half_step dt n1) as [n2|] eqn:E2.
    + apply half_step_static in E2.
      rewrite threshold_static, E2, E1. reflexivity.
    + rewrite threshold_static, E1. reflexivity.
  - rewrite threshold_static. reflexivity.
Qed.

Lemma threshold_fired n :
  IZNeuron.fired (IZNeuron.threshold n) = 0 \/
  IZNeuron.fired (IZNeuron.threshold n) = 1.
Proof.
  unfold IZNeuron.threshold, PyFloat.gt. cbn.
  destruct (30 <? IZNeuron.v n); cbn; auto.
Qed.

Lemma advance_fired dt n :
  IZNeuron.fired (IZNeuron.advance dt n) = 0 \/
  IZNeuron.fired (IZNeuron.advance dt n) = 1.
Proof.
  unfold IZNeuron.advance.
  destruct (IZNeuron.integrate dt n); apply threshold_fired.
Qed.

(** [reset] rebuilds the neuron from its parameters. *)
Lemma reset_is_init n :
  IZNeuron.reset n =
  IZNeuron.init (IZNeuron.bias n) (IZNeuron.a n) (IZNeuron.b n) (IZNeuron.c n)
    (IZNeuron.d n) (IZNeuron.inputs n).
Proof. reflexivity. Qed.

Lemma reset_after_advance dt n :
  IZNeuron.reset (IZNeuron.advance dt n) = IZNeuron.reset n.
Proof.
  rewrite !reset_is_init.
  pose proof (advance_static dt n) as H. unfold Spec.static in H.
  injection H as -> -> -> -> -> -> _. reflexivity.
Qed.

(** What the overflow path of [advance] leaves behind. *)
Lemma advance_on_overflow dt n :
  IZNeuron.overflows dt n = true ->
  IZNeuron.advance dt n =
  if PyFloat.gt (IZNeuron.c n) 30 then
    IZNeuron.set_fired
      (IZNeuron.set_u (Spec.after_overflow n)
         (IZNeuron.b n * IZNeuron.c n + IZNeuron.d n)) 1
  else Spec.after_overflow n.
Proof.
  unfold IZNeuron.overflows, IZNeuron.advance, IZNeuron.integrate, IZNeuron.at_overflow.
  destruct (IZNeuron.half_step dt n) as [n1|] eqn:E1.
  - apply half_step_static in E1.
    destruct (IZNeuron.half_step dt n1) as [n2|]; [discriminate|]. intros _.
    rewrite E1. unfold IZNeuron.threshold, Spec.after_overflow, PyFloat.gt. cbn.
    destruct (30 <? IZNeuron.c n); reflexivity.
  - intros _. unfold IZNeuron.threshold, Spec.after_overflow, PyFloat.gt. cbn.
    destruct (30 <? IZNeuron.c n); reflexivity.
Qed.

Lemma advance_no_overflow dt n sq0 sq1 :
  PyFloat.pow2 (IZNeuron.v n) = Some sq0 ->
  PyFloat.pow2
    (Spec.half_step dt (IZNeuron.v n) sq0 (IZNeuron.u n) (IZNeuron.current n)) = Some sq1 ->
  IZNeuron.overflows dt n = false /\
  IZNeuron.advance dt n = Spec.advance dt n sq0 sq1.
Proof.
  intros H0 H1.
  unfold IZNeuron.overflows, IZNeuron.advance, IZNeuron.integrate, IZNeuron.half_step.
  rewrite H0. cbn [IZNeuron.v IZNeuron.u IZNeuron.current IZNeuron.set_v].
  unfold Spec.half_step in H1. rewrite H1. split; [reflexivity|].
  unfold IZNeuron.threshold, Spec.advance, Spec.integrated_u, Spec.integrated_v,
    Spec.half_step, PyFloat.gt.
  cbn. destruct (30 <? _); reflexivity.
Qed.

(** C3.  When the [try] block raises no [OverflowError], the two squares
    [sq0] and [sq1] were computed, and [advance] performs the two
    half-steps on [v] with the same [current] and the old [u], then updates
    [u] from the integrated [v]; [fired] is 1.0 exactly when the integrated
    [v] exceeds 30.0, and then [v] is [c] and [u] is the integrated [u]
    plus [d]; otherwise [fired] is 0.0 and the integrated [v], [u] stand. *)
Theorem C3_advance_integrates dt n :
  IZNeuron.overflows dt n = false ->
  exists sq0 sq1,
    PyFloat.pow2 (IZNeuron.v n) = Some sq0 /\
    PyFloat.pow2
      (Spec.half_step dt (IZNeuron.v n) sq0 (IZNeuron.u n) (IZNeuron.current n)) = Some sq1 /\
    let n' := IZNeuron.advance dt n in
    let v2 := Spec.integrated_v dt n sq0 sq1 in
    let u2 := Spec.integrated_u dt n sq0 sq1 in
    n' = Spec.advance dt n sq0 sq1 /\
    (IZNeuron.fired n' = 1 <-> PyFloat.gt v2 30 = true) /\
    (PyFloat.gt v2 30 = true ->
       IZNeuron.fired n' = 1 /\ IZNeuron.v n' = IZNeuron.c n /\
       IZNeuron.u n' = u2 + IZNeuron.d n) /\
    (PyFloat.gt v2 30 = false ->
       IZNeuron.fired n' = 0 /\ IZNeuron.v n' = v2 /\ IZNeuron.u n' = u2) /\
    static n' = static n.
Proof.
  intros Hno.
  assert (Hsq : exists sq0 sq1,
             PyFloat.pow2 (IZNeuron.v n) = Some sq0 /\
             PyFloat.pow2 (Spec.half_step dt (IZNeuron.v n) sq0 (IZNeuron.u n)
                             (IZNeuron.current n)) = Some sq1).
  { unfold IZNeuron.overflows, IZNeuron.integrate, IZNeuron.half_step in Hno.
    destruct (PyFloat.pow2 (IZNeuron.v n)) as [sq0|]; [|discriminate].
    cbn [IZNeuron.v IZNeuron.u IZNeuron.current IZNeuron.set_v] in Hno.
    exists sq0. unfold Spec.half_step.
    destruct (PyFloat.pow2 _) as [sq1|]; [|discriminate].
    exists sq1. split; reflexivity. }
  destruct Hsq as (sq0 & sq1 & H0 & H1). exists sq0, sq1.
  split; [exact H0|]. split; [exact H1|]. intros n' v2 u2.
  destruct (advance_no_overflow dt n sq0 sq1 H0 H1) as [_ Ha].
  split; [exact Ha|].
  subst n'. rewrite Ha. unfold Spec.advance. fold v2 u2.
  destruct (PyFloat.gt v2 30) eqn:G; cbn.
  - split; [tauto|]. split; [tauto|]. split; [discriminate|reflexivity].
  - split.
    { split; [|discriminate].
      intros E. symmetry in E. destruct (float_one_neq_zero E). }
    split; [discriminate|]. split; [tauto|reflexivity].
Qed.

(** The first step of Scenario A integrates without overflow: to four
    decimal places, [v] is -65.1496 and [u] is -13.00003 afterwards. *)
Lemma C3_scenario_A :
  exists sq0 sq1,
    IZNeuron.advance 0.05 Examples.regular_spiking =
      Spec.advance 0.05 Examples.regular_spiking sq0 sq1 /\
    IZNeuron.fired (IZNeuron.advance 0.05 Examples.regular_spiking) = 0 /\
    IZNeuron.v (IZNeuron.advance 0.05 Examples.regular_spiking) = -65.149619375 /\
    IZNeuron.u (IZNeuron.advance 0.05 Examples.regular_spiking) = -13.000029923874999.
Proof.
  destruct (C3_advance_integrates 0.05 Examples.regular_spiking eq_refl)
    as (sq0 & sq1 & _ & _ & Ha & _).
  exists sq0, sq1. split; [exact Ha|]. repeat split.
Defined.

(** C1, at a neuron whose reset potential is above the threshold: the
    second square overflows, the handler resets [v] and [u], and the
    threshold test that follows then fires on the reset potential.  The
    call ends with [fired] = 1.0 and [u] = [b*c + d], where the comment on
    the handler announces a reset without a spike. *)
Theorem C1_overflow_then_spike :
  let n := Examples.high_reset in
  let n' := IZNeuron.advance 1 n in
  IZNeuron.overflows 1 n = true /\
  IZNeuron.fired n' = 1 /\
  IZNeuron.v n' = IZNeuron.c n /\
  IZNeuron.u n' = IZNeuron.b n * IZNeuron.c n + IZNeuron.d n /\
  IZNeuron.u n' <> IZNeuron.b n * IZNeuron.c n /\
  IZNeuron.current n' = IZNeuron.current n /\
  n' <> Spec.after_overflow n.
Proof.
  cbv zeta. repeat split; try (vm_compute; reflexivity).
  - intro H. apply (f_equal (fun x => PrimFloat.eqb x 8)) in H.
    vm_compute in H. discriminate H.
  - intro H. apply (f_equal (fun m => PrimFloat.eqb (IZNeuron.fired m) 0)) in H.
    vm_compute in H. discriminate H.
Qed.

(** C8.  A fresh neuron has [v = c], [u = b*c], [fired = 0.0] and
    [current = bias], and [reset] after any sequence of [advance] calls
    gives back exactly the fresh neuron. *)
Theorem C8_init_and_reset bias a b c d ins :
  let n0 := IZNeuron.init bias a b c d ins in
  IZNeuron.v n0 = c /\ IZNeuron.u n0 = b * c /\
  IZNeuron.fired n0 = 0 /\ IZNeuron.current n0 = bias /\
  IZNeuron.reset n0 = n0 /\
  forall dts : list float,
    IZNeuron.reset (fold_left (fun n dt => IZNeuron.advance dt n) dts n0) = n0.
Proof.
  cbv zeta. repeat split.
  intros dts.
  assert (G : forall n, IZNeuron.reset
            (fold_left (fun n dt => IZNeuron.advance dt n) dts n) = IZNeuron.reset n).
  { induction dts as [|dt dts IH]; intros n; cbn [fold_left]; [reflexivity|].
    rewrite IH. apply reset_after_advance. }
  rewrite G. reflexivity.
Qed.

(** ** Dictionaries *)

Lemma get_In {V} (k : NodeKey) (m : Dict.t V) x :
  Dict.get k m = Some x -> In (k, x) m.
Proof.
  induction m as [|[k' y] m IH]; cbn; [discriminate|].
  destruct (Z.eqb_spec k k') as [->|_].
  - intros E; inversion E; auto.
  - auto.
Qed.

Lemma get_None_iff {V} (k : NodeKey) (m : Dict.t V) :
  Dict.get k m = None <-> ~ In k (Dict.keys m).
Proof.
  induction m as [|[k' y] m IH]; cbn; [tauto|].
  destruct (Z.eqb_spec k k') as [->|N].
  - split; [discriminate|]. intros H; destruct H; auto.
  - rewrite IH. split; [intros H [E|I]; [congruence|auto] | tauto].
Qed.

Lemma In_get {V} (k : NodeKey) (m : Dict.t V) x :
  NoDup (Dict.keys m) -> In (k, x) m -> Dict.get k m = Some x.
Proof.
  induction m as [|[k' y] m IH]; cbn; [tauto|].
  intros ND [E|I].
  - inversion E; subst. now rewrite Z.eqb_refl.
  - inversion ND as [|? ? Hn ND']; subst.
    destruct (Z.eqb_spec k k') as [->|_]; [|auto].
    destruct Hn. change k' with (fst (k', x)). now apply in_map.
Qed.

(** Lookup does not depend on the storage order. *)
Lemma get_Permutation {V} (k : NodeKey) (m m' : Dict.t V) :
  NoDup (Dict.keys m) -> Permutation m m' -> Dict.get k m = Dict.get k m'.
Proof.
  intros ND P.
  assert (ND' : NoDup (Dict.keys m')).
  { eapply Permutation_NoDup; [|exact ND]. now apply Permutation_map. }
  destruct (Dict.get k m) as [x|] eqn:E.
  - symmetry. apply In_get; [exact ND'|].
    eapply Permutation_in; [exact P|]. now apply get_In.
  - symmetry. apply get_None_iff. apply get_None_iff in E.
    intros I. apply E. eapply Permutation_in; [|exact I].
    apply Permutation_map. now apply Permutation_sym.
Qed.

Lemma get_set_same {V} (k : NodeKey) (x : V) (m : Dict.t V) :
  Dict.get k (Dict.set k x m) = Some x.
Proof.
  induction m as [|[k' y] m IH]; cbn.
  - now rewrite Z.eqb_refl.
  - destruct (Z.eqb_spec k k') as [->|N]; cbn.
    + now rewrite Z.eqb_refl.
    + destruct (Z.eqb_spec k k'); [contradiction|exact IH].
Qed.

Lemma get_set_other {V} (k k' : NodeKey) (x : V) (m : Dict.t V) :
  k <> k' -> Dict.get k (Dict.set k' x m) = Dict.get k m.
Proof.
  intros N. induction m as [|[k0 y] m IH]; cbn.
  - destruct (Z.eqb_spec k k'); [contradiction|reflexivity].
  - destruct (Z.eqb_spec k' k0) as [->|N0]; cbn.
    + destruct (Z.eqb_spec k k0); [contradiction|reflexivity].
    + destruct (Z.eqb_spec k k0); [reflexivity|exact IH].
Qed.

(** [set] overwrites in place or appends: the keys stay distinct. *)
Lemma keys_set {V} (k : NodeKey) (x : V) (m : Dict.t V) :
  Dict.keys (Dict.set k x m) =
  if mem k (Dict.keys m) then Dict.keys m else Dict.keys m ++ [k].
Proof.
  unfold mem. induction m as [|[k' y] m IH]; cbn; [reflexivity|].
  destruct (Z.eqb_spec k k') as [->|N]; cbn; [reflexivity|].
  fold (Dict.keys (Dict.set k x m)). rewrite IH.
  fold (Dict.keys m). destruct (existsb (Z.eqb k) (Dict.keys m)); reflexivity.
Qed.

Lemma mem_In (k : NodeKey) (s : list NodeKey) : mem k s = true <-> In k s.
Proof.
  unfold mem. rewrite existsb_exists. split.
  - intros (x & I & E). apply Z.eqb_eq in E. now subst.
  - intros I. exists k. split; [exact I|apply Z.eqb_refl].
Qed.

Lemma mem_false (k : NodeKey) (s : list NodeKey) : mem k s = false <-> ~ In k s.
Proof.
  rewrite <- mem_In. destruct (mem k s); split; congruence.
Qed.

(** ** The first phase of [IZNN.advance] *)

Lemma set_current_current n : IZNeuron.set_current n (IZNeuron.current n) = n.
Proof. destruct n; reflexivity. Qed.

Lemma get_fired_view k ns :
  Dict.get k (Spec.fired_view ns) = option_map IZNeuron.fired (Dict.get k ns).
Proof.
  induction ns as [|[k' n] ns IH]; cbn; [reflexivity|].
  destruct (Z.eqb k k'); [reflexivity|exact IH].
Qed.

(** The value of a source depends on the neurons through their keys and
    [fired] fields only. *)
Lemma source_value_view ns ns' ivs i :
  Spec.fired_view ns = Spec.fired_view ns' ->
  IZNN.source_value ns ivs i = IZNN.source_value ns' ivs i.
Proof.
  intros E. unfold IZNN.source_value.
  pose proof (get_fired_view i ns) as H. rewrite E, get_fired_view in H.
  destruct (Dict.get i ns), (Dict.get i ns'); cbn in H; try discriminate; [|reflexivity].
  now inversion H.
Qed.

Lemma fired_view_app ns ms :
  Spec.fired_view (ns ++ ms) = Spec.fired_view ns ++ Spec.fired_view ms.
Proof. apply map_app. Qed.

(** Lines 175-179 read the value the specification names: the source
    neuron's [fired], else the supplied input value, else [KeyError]. *)
Lemma source_value_spec ns ivs i :
  IZNN.source_value ns ivs i =
  match Spec.source ns ivs i with
  | Some x => inr x
  | None => inl (KeyError i)
  end.
Proof.
  unfold IZNN.source_value, Spec.source.
  destruct (Dict.get i ns); [reflexivity|]. now destruct (Dict.get i ivs).
Qed.

Lemma sum_inputs_cons s ivs acc i w ins :
  Spec.sum_inputs s ivs acc ((i, w) :: ins) =
  match IZNN.source_value s ivs i with
  | inl e => (acc, Some e)
  | inr x => Spec.sum_inputs s ivs (acc + w * x) ins
  end.
Proof.
  cbn [Spec.sum_inputs]. rewrite source_value_spec.
  now destruct (Spec.source s ivs i).
Qed.

(** The inner loop reads the same values in the dictionary under update
    as in the snapshot. *)
Lemma add_inputs_frozen snapshot done todo ivs k ins : forall n,
  Spec.fired_view (done ++ (k, n) :: todo) = Spec.fired_view snapshot ->
  IZNN.add_inputs done todo ivs k n ins =
  (IZNeuron.set_current n (fst (Spec.sum_inputs snapshot ivs (IZNeuron.current n) ins)),
   snd (Spec.sum_inputs snapshot ivs (IZNeuron.current n) ins)).
Proof.
  induction ins as [|[i w] ins IH]; intros n E; [cbn|rewrite sum_inputs_cons; cbn].
  - now rewrite set_current_current.
  - rewrite (source_value_view _ snapshot ivs i E).
    destruct (IZNN.source_value snapshot ivs i) as [e|x]; cbn.
    + now rewrite set_current_current.
    + rewrite (float_mul_comm w x), IH; [reflexivity|].
      rewrite <- E, !fired_view_app. reflexivity.
Qed.

(** The first loop computes the currents of the snapshot. *)
Lemma compute_currents_frozen snapshot ivs todo : forall done,
  Spec.fired_view (done ++ todo) = Spec.fired_view snapshot ->
  IZNN.compute_currents done todo ivs =
  (done ++ fst (Spec.currents snapshot ivs todo), snd (Spec.currents snapshot ivs todo)).
Proof.
  induction todo as [|[k n] todo IH]; intros done E; cbn.
  - now rewrite app_nil_r.
  - rewrite (add_inputs_frozen snapshot).
    2:{ rewrite <- E, !fired_view_app. reflexivity. }
    cbn. unfold Spec.frozen_current.
    destruct (Spec.sum_inputs snapshot ivs (IZNeuron.bias n) (IZNeuron.inputs n))
      as [acc [e|]]; cbn.
    + reflexivity.
    + rewrite IH.
      2:{ rewrite <- E, <- app_assoc, !fired_view_app. reflexivity. }
      destruct (Spec.currents snapshot ivs todo) as [r e]; cbn.
      now rewrite <- app_assoc.
Qed.

Lemma advance_unfold dt net :
  IZNN.advance dt net =
  match Spec.currents (IZNN.neurons net) (IZNN.input_values net) (IZNN.neurons net) with
  | (ns, Some e) => (IZNN.set_neurons net ns, inl e)
  | (ns, None) =>
      (IZNN.set_neurons net (IZNN.advance_all dt ns),
       IZNN.collect (IZNN.advance_all dt ns) (IZNN.outputs net))
  end.
Proof.
  unfold IZNN.advance.
  rewrite (compute_currents_frozen (IZNN.neurons net)) by reflexivity.
  cbn [app].
  destruct (Spec.currents _ _ _) as [ns [e|]]; reflexivity.
Qed.

(** *** The snapshot version *)

Lemma sum_inputs_ext s1 ivs1 s2 ivs2 ins : forall acc,
  (forall i w, In (i, w) ins -> IZNN.source_value s1 ivs1 i = IZNN.source_value s2 ivs2 i) ->
  Spec.sum_inputs s1 ivs1 acc ins = Spec.sum_inputs s2 ivs2 acc ins.
Proof.
  induction ins as [|[i w] ins IH]; intros acc H; [reflexivity|].
  rewrite !sum_inputs_cons.
  rewrite (H i w) by (left; reflexivity).
  destruct (IZNN.source_value s2 ivs2 i); [reflexivity|].
  apply IH. intros i' w' I. apply (H i' w'). now right.
Qed.

Lemma currents_ext s1 ivs1 s2 ivs2 todo :
  (forall k n i w, In (k, n) todo -> In (i, w) (IZNeuron.inputs n) ->
     IZNN.source_value s1 ivs1 i = IZNN.source_value s2 ivs2 i) ->
  Spec.currents s1 ivs1 todo = Spec.currents s2 ivs2 todo.
Proof.
  induction todo as [|[k n] todo IH]; intros H; cbn; [reflexivity|].
  unfold Spec.frozen_current.
  rewrite (sum_inputs_ext s1 ivs1 s2 ivs2).
  2:{ intros i w I. apply (H k n i w); [now left|exact I]. }
  rewrite IH; [reflexivity|].
  intros k' n' i w I I'. apply (H k' n' i w); [now right|exact I'].
Qed.

Lemma source_value_bound ns ivs i :
  Spec.bound ns ivs i <-> exists x, IZNN.source_value ns ivs i = inr x.
Proof.
  unfold Spec.bound, IZNN.source_value.
  destruct (Dict.get i ns) as [n|]; [|destruct (Dict.get i ivs) as [x|]].
  - split; [intros _; eauto|]. intros _. left. discriminate.
  - split; [intros _; eauto|]. intros _. right. discriminate.
  - split; [intros [H|H]; congruence|]. intros [x H]. discriminate.
Qed.

Lemma source_value_unbound ns ivs i e :
  IZNN.source_value ns ivs i = inl e ->
  e = KeyError i /\ Dict.get i ns = None /\ Dict.get i ivs = None.
Proof.
  unfold IZNN.source_value.
  destruct (Dict.get i ns) as [n|]; [discriminate|].
  destruct (Dict.get i ivs) as [x|]; [discriminate|].
  intros E; inversion E; auto.
Qed.

Lemma sum_inputs_total s ivs ins : forall acc,
  (forall i w, In (i, w) ins -> Spec.bound s ivs i) ->
  snd (Spec.sum_inputs s ivs acc ins) = None.
Proof.
  induction ins as [|[i w] ins IH]; intros acc H; [reflexivity|].
  rewrite sum_inputs_cons.
  destruct (proj1 (source_value_bound s ivs i) (H i w (or_introl eq_refl))) as [x ->].
  apply IH. intros i' w' I. apply (H i' w'). now right.
Qed.

Lemma sum_inputs_error s ivs ins : forall acc e,
  snd (Spec.sum_inputs s ivs acc ins) = Some e ->
  exists i w, In (i, w) ins /\ e = KeyError i /\
              Dict.get i s = None /\ Dict.get i ivs = None.
Proof.
  induction ins as [|[i w] ins IH]; intros acc e; [discriminate|].
  rewrite sum_inputs_cons.
  destruct (IZNN.source_value s ivs i) as [e'|x] eqn:E; cbn.
  - intros H; inversion H; subst. exists i, w.
    split; [now left|]. now apply source_value_unbound.
  - intros H. destruct (IH _ _ H) as (i' & w' & I & R). exists i', w'. split; [now right|exact R].
Qed.

Lemma currents_total s ivs todo :
  (forall k n i w, In (k, n) todo -> In (i, w) (IZNeuron.inputs n) -> Spec.bound s ivs i) ->
  Spec.currents s ivs todo =
  (map (fun kn => (fst kn, IZNeuron.set_current (snd kn)
                             (fst (Spec.frozen_current s ivs (snd kn))))) todo, None).
Proof.
  induction todo as [|[k n] todo IH]; intros H; cbn; [reflexivity|].
  pose proof (sum_inputs_total s ivs (IZNeuron.inputs n) (IZNeuron.bias n)) as T.
  unfold Spec.frozen_current in *.
  destruct (Spec.sum_inputs s ivs (IZNeuron.bias n) (IZNeuron.inputs n)) as [acc e].
  cbn in T. rewrite T.
  2:{ intros i w I. apply (H k n i w); [now left|exact I]. }
  rewrite IH; [reflexivity|].
  intros k' n' i w I I'. apply (H k' n' i w); [now right|exact I'].
Qed.

Lemma currents_error s ivs todo e :
  snd (Spec.currents s ivs todo) = Some e ->
  exists k n i w, In (k, n) todo /\ In (i, w) (IZNeuron.inputs n) /\ e = KeyError i /\
                  Dict.get i s = None /\ Dict.get i ivs = None.
Proof.
  induction todo as [|[k n] todo IH]; cbn; [discriminate|].
  unfold Spec.frozen_current.
  destruct (Spec.sum_inputs s ivs (IZNeuron.bias n) (IZNeuron.inputs n)) as [acc [e'|]] eqn:E.
  - cbn. intros H; inversion H; subst.
    destruct (sum_inputs_error s ivs (IZNeuron.inputs n) (IZNeuron.bias n) e) as (i & w & I & R).
    { now rewrite E. }
    exists k, n, i, w. split; [now left|]. split; [exact I|exact R].
  - destruct (Spec.currents s ivs todo) as [r e']. cbn in *. intros H.
    destruct (IH H) as (k' & n' & i & w & I & R).
    exists k', n', i, w. split; [now right|exact R].
Qed.

Lemma currents_fails s ivs todo k n i w :
  In (k, n) todo -> In (i, w) (IZNeuron.inputs n) ->
  Dict.get i s = None -> Dict.get i ivs = None ->
  snd (Spec.currents s ivs todo) <> None.
Proof.
  intros I I' G1 G2 H.
  assert (B : ~ Spec.bound s ivs i) by (unfold Spec.bound; tauto).
  apply B. clear B G1 G2.
  induction todo as [|[k0 n0] todo IH]; [destruct I|].
  cbn in H. unfold Spec.frozen_current in H.
  destruct (Spec.sum_inputs s ivs (IZNeuron.bias n0) (IZNeuron.inputs n0)) as [acc [e'|]] eqn:E;
    [discriminate|].
  destruct I as [I|I].
  - inversion I; subst. clear - E I'.
    revert E. generalize (IZNeuron.bias n). 
    induction (IZNeuron.inputs n) as [|[i0 w0] ins IH]; [destruct I'|]. intros acc0.
    rewrite sum_inputs_cons.
    destruct (IZNN.source_value s ivs i0) as [e|x] eqn:S; [discriminate|].
    destruct I' as [I'|I'].
    + inversion I'; subst. intros _. apply source_value_bound. eauto.
    + apply IH. exact I'.
  - destruct (Spec.currents s ivs todo) as [r e']. cbn in H. apply IH; assumption.
Qed.

(** ** [IZNN.advance] *)

Lemma get_map_values {V W} (f : V -> W) (k : NodeKey) (m : Dict.t V) :
  Dict.get k (map (fun kv => (fst kv, f (snd kv))) m) = option_map f (Dict.get k m).
Proof.
  induction m as [|[k' x] m IH]; cbn; [reflexivity|].
  destruct (Z.eqb k k'); [reflexivity|exact IH].
Qed.

Lemma keys_map_values {V W} (f : NodeKey * V -> W) (m : Dict.t V) :
  Dict.keys (map (fun kv => (fst kv, f kv)) m) = Dict.keys m.
Proof.
  unfold Dict.keys. rewrite map_map. reflexivity.
Qed.

Lemma collect_ext ns ns' outs :
  (forall o, In o outs -> Dict.get o ns = Dict.get o ns') ->
  IZNN.collect ns outs = IZNN.collect ns' outs.
Proof.
  induction outs as [|o outs IH]; intros H; cbn; [reflexivity|].
  rewrite (H o) by now left.
  rewrite IH; [reflexivity|]. intros o' I. apply H. now right.
Qed.

Lemma collect_total ns outs :
  (forall o, In o outs -> Dict.get o ns <> None) ->
  exists l, IZNN.collect ns outs = inr l /\
            Forall2 (fun o x => exists n, Dict.get o ns = Some n /\ x = IZNeuron.fired n) outs l.
Proof.
  induction outs as [|o outs IH]; intros H; cbn.
  - exists []. split; [reflexivity|constructor].
  - destruct (Dict.get o ns) as [n|] eqn:E; [|destruct (H o (or_introl eq_refl) E)].
    destruct IH as (l & -> & F); [intros o' I; apply H; now right|].
    exists (IZNeuron.fired n :: l). split; [reflexivity|].
    constructor; [|exact F]. exists n. split; [exact E|reflexivity].
Qed.

Lemma advance_all_after_currents dt s ivs ns :
  IZNN.advance_all dt
    (map (fun kn => (fst kn, IZNeuron.set_current (snd kn)
                               (fst (Spec.frozen_current s ivs (snd kn))))) ns) =
  map (Spec.step_neuron dt s ivs) ns.
Proof.
  unfold IZNN.advance_all. rewrite map_map. reflexivity.
Qed.

(** A call of [advance] on a network whose sources all have a value and
    whose output keys all name neurons returns, and steps every neuron
    from the snapshot. *)
Lemma advance_ok dt net :
  (forall k n i w, In (k, n) (IZNN.neurons net) -> In (i, w) (IZNeuron.inputs n) ->
     Spec.bound (IZNN.neurons net) (IZNN.input_values net) i) ->
  (forall o, In o (IZNN.outputs net) -> Dict.get o (IZNN.neurons net) <> None) ->
  let ns' := map (Spec.step_neuron dt (IZNN.neurons net) (IZNN.input_values net))
                 (IZNN.neurons net) in
  exists outs,
    IZNN.advance dt net = (IZNN.set_neurons net ns', inr outs) /\
    IZNN.collect ns' (IZNN.outputs net) = inr outs /\
    Forall2 (fun o x => exists n', Dict.get o ns' = Some n' /\ x = IZNeuron.fired n')
            (IZNN.outputs net) outs.
Proof.
  intros Hb Ho ns'.
  rewrite advance_unfold, (currents_total _ _ _ Hb), advance_all_after_currents.
  fold ns'.
  destruct (collect_total ns' (IZNN.outputs net)) as (outs & E & F).
  { intros o I. unfold ns', Spec.step_neuron.
    rewrite (get_map_values
               (fun n => IZNeuron.advance dt (IZNeuron.set_current n
                  (fst (Spec.frozen_current (IZNN.neurons net) (IZNN.input_values net) n))))).
    specialize (Ho o I). destruct (Dict.get o (IZNN.neurons net)); [discriminate|congruence]. }
  exists outs. rewrite E. auto.
Qed.

Lemma source_value_get_ext ns ns' ivs i :
  Dict.get i ns = Dict.get i ns' ->
  IZNN.source_value ns ivs i = IZNN.source_value ns' ivs i.
Proof. unfold IZNN.source_value. now intros ->. Qed.

Lemma step_neuron_ext dt s s' ivs kn :
  (forall i, Dict.get i s = Dict.get i s') ->
  Spec.step_neuron dt s ivs kn = Spec.step_neuron dt s' ivs kn.
Proof.
  intros H. unfold Spec.step_neuron, Spec.frozen_current.
  rewrite (sum_inputs_ext s ivs s' ivs); [reflexivity|].
  intros i w _. apply source_value_get_ext, H.
Qed.

Lemma stepped_currents dt snapshot ivs ns :
  Forall2 (fun kn kn' => fst kn' = fst kn /\
             IZNeuron.current (snd kn') =
             fst (Spec.frozen_current snapshot ivs (snd kn)))
          ns (map (Spec.step_neuron dt snapshot ivs) ns).
Proof.
  induction ns as [|[k n] ns IH]; cbn [map]; constructor; [|exact IH].
  split; [reflexivity|]. unfold Spec.step_neuron. cbn [fst snd].
  pose proof (advance_static dt
                (IZNeuron.set_current n (fst (Spec.frozen_current snapshot ivs n)))) as H.
  unfold Spec.static in H. injection H as _ _ _ _ _ _ Hc. rewrite Hc. now destruct n.
Qed.

(** C2.  On a network whose source keys all have a value and whose output
    keys all name neurons, [advance] returns.  The neurons it leaves are,
    key by key and in storage order, [IZNeuron.advance] applied once to
    the neuron whose current is the frozen current: its bias plus, in
    input-list order, the weight times the value of the source, which is
    the [fired] of the source neuron in the state before the call, or
    the supplied input value when the source is not a neuron
    ([Spec.source]); that current is the one every neuron holds after the
    call.  The result lists the [fired] values of the output neurons in
    the order of the output keys and has their number; and storing the
    same neurons in another order gives the same result. *)
Theorem C2_advance_two_phase dt net :
  (forall k n i w, In (k, n) (IZNN.neurons net) -> In (i, w) (IZNeuron.inputs n) ->
     Spec.bound (IZNN.neurons net) (IZNN.input_values net) i) ->
  (forall o, In o (IZNN.outputs net) -> Dict.get o (IZNN.neurons net) <> None) ->
  let ns' := map (Spec.step_neuron dt (IZNN.neurons net) (IZNN.input_values net))
                 (IZNN.neurons net) in
  exists outs,
    IZNN.advance dt net = (IZNN.set_neurons net ns', inr outs) /\
    (forall k n, In (k, n) (IZNN.neurons net) ->
       snd (Spec.frozen_current (IZNN.neurons net) (IZNN.input_values net) n) = None) /\
    length outs = length (IZNN.outputs net) /\
    Forall2 (fun o x => exists n', Dict.get o ns' = Some n' /\ x = IZNeuron.fired n')
            (IZNN.outputs net) outs /\
    (forall net2,
      NoDup (Dict.keys (IZNN.neurons net)) ->
      Permutation (IZNN.neurons net) (IZNN.neurons net2) ->
      IZNN.inputs net2 = IZNN.inputs net ->
      IZNN.outputs net2 = IZNN.outputs net ->
      IZNN.input_values net2 = IZNN.input_values net ->
      exists ns2',
        IZNN.advance dt net2 = (IZNN.set_neurons net2 ns2', inr outs) /\
        IZNN.neurons (fst (IZNN.advance dt net2)) = ns2' /\
        Permutation ns' ns2') /\
    IZNN.neurons (fst (IZNN.advance dt net)) = ns' /\
    snd (IZNN.advance dt net) = inr outs /\
    Forall2 (fun kn kn' =>
               fst kn' = fst kn /\
               IZNeuron.current (snd kn') =
               fst (Spec.frozen_current (IZNN.neurons net) (IZNN.input_values net) (snd kn)))
            (IZNN.neurons net) (IZNN.neurons (fst (IZNN.advance dt net))).
Proof.
  intros Hb Ho ns'.
  destruct (advance_ok dt net Hb Ho) as (outs & Ea & Ec & F). fold ns' in Ea, Ec, F.
  exists outs. split; [exact Ea|]. split.
  { intros k n I. apply sum_inputs_total. intros i w I'. exact (Hb k n i w I I'). }
  split; [symmetry; exact (Forall2_length F)|]. split; [exact F|].
  split.
  2:{ rewrite Ea. cbn [fst snd IZNN.set_neurons IZNN.neurons].
      split; [reflexivity|]. split; [reflexivity|]. apply stepped_currents. }
  intros net2 ND P Ei Eo Ev.
  assert (G : forall i, Dict.get i (IZNN.neurons net2) = Dict.get i (IZNN.neurons net)).
  { intros i. symmetry. now apply get_Permutation. }
  destruct (advance_ok dt net2) as (outs2 & Ea2 & Ec2 & _).
  { intros k n i w I I'. rewrite Ev. unfold Spec.bound. rewrite G.
    apply (Hb k n i w); [|exact I'].
    eapply Permutation_in; [apply Permutation_sym; exact P|exact I]. }
  { intros o I. rewrite G. apply Ho. now rewrite <- Eo. }
  rewrite Ev, Eo in *.
  assert (Em : map (Spec.step_neuron dt (IZNN.neurons net2) (IZNN.input_values net))
                   (IZNN.neurons net2) =
               map (Spec.step_neuron dt (IZNN.neurons net) (IZNN.input_values net))
                   (IZNN.neurons net2)).
  { apply map_ext. intros kn. now apply step_neuron_ext. }
  rewrite Em in *.
  assert (Pm : Permutation ns'
                 (map (Spec.step_neuron dt (IZNN.neurons net) (IZNN.input_values net))
                    (IZNN.neurons net2))) by now apply Permutation_map.
  assert (Eouts : outs2 = outs).
  { assert (Ec' : IZNN.collect
        (map (Spec.step_neuron dt (IZNN.neurons net) (IZNN.input_values net))
           (IZNN.neurons net2)) (IZNN.outputs net) = IZNN.collect ns' (IZNN.outputs net)).
    { apply collect_ext. intros o _. symmetry. apply get_Permutation; [|exact Pm].
      unfold ns', Spec.step_neuron.
      rewrite (keys_map_values (fun kn => IZNeuron.advance dt (IZNeuron.set_current (snd kn)
         (fst (Spec.frozen_current (IZNN.neurons net) (IZNN.input_values net) (snd kn)))))).
      exact ND. }
    rewrite Ec2, Ec in Ec'. now inversion Ec'. }
  subst outs2.
  exists (map (Spec.step_neuron dt (IZNN.neurons net) (IZNN.input_values net))
            (IZNN.neurons net2)).
  split; [exact Ea2|]. split; [now rewrite Ea2|exact Pm].
Qed.

(** The Scenario C network completes a step and returns one value; its
    neuron has read the input value 10.0 with weight 1.0 and its own
    [fired] flag 0.0 with weight 0.5, and holds the current 10.0. *)
Lemma C2_driven_network :
  exists outs,
    IZNN.advance 0.05 Examples.driven =
    (IZNN.set_neurons Examples.driven
       (map (Spec.step_neuron 0.05 (IZNN.neurons Examples.driven)
               (IZNN.input_values Examples.driven))
            (IZNN.neurons Examples.driven)), inr outs) /\
    length outs = 1%nat /\
    map (fun kn => (fst kn, IZNeuron.current (snd kn)))
        (IZNN.neurons (fst (IZNN.advance 0.05 Examples.driven))) = [(0%Z, 10.0)].
Proof.
  destruct (C2_advance_two_phase 0.05 Examples.driven)
    as (outs & Ea & _ & El & _).
  - intros k n i w [E|[]] I. inversion E; subst; clear E.
    destruct I as [E|[E|[]]]; inversion E; subst; clear E.
    + right. discriminate.
    + left. discriminate.
  - intros o [<-|[]]. discriminate.
  - exists outs. split; [exact Ea|]. split; [exact El|].
    vm_compute. reflexivity.
Defined.

(** ** Missing input bindings *)

Lemma same_but_current_facts n n' :
  Spec.same_but_current n n' ->
  IZNeuron.bias n' = IZNeuron.bias n /\
  IZNeuron.inputs n' = IZNeuron.inputs n /\
  IZNeuron.fired n' = IZNeuron.fired n /\
  forall x, IZNeuron.set_current n' x = IZNeuron.set_current n x.
Proof.
  unfold Spec.same_but_current. intros <-. destruct n'; cbn. auto.
Qed.

Lemma same_but_current_set n x : Spec.same_but_current n (IZNeuron.set_current n x).
Proof. unfold Spec.same_but_current. destruct n; reflexivity. Qed.

Lemma up_to_current_refl ns : Spec.up_to_current ns ns.
Proof.
  induction ns as [|kn ns IH]; constructor; [|exact IH].
  split; [reflexivity|]. apply set_current_current.
Qed.

Lemma up_to_current_view ns ns' :
  Spec.up_to_current ns ns' -> Spec.fired_view ns' = Spec.fired_view ns.
Proof.
  unfold Spec.fired_view.
  induction 1 as [|kn kn' ns ns' [Ek Hn] _ IH]; cbn [map]; [reflexivity|].
  destruct (same_but_current_facts _ _ Hn) as (_ & _ & -> & _).
  now rewrite Ek, IH.
Qed.

(** The first phase leaves every neuron as it was, up to [current]. *)
Lemma currents_up_to_current s ivs todo :
  Spec.up_to_current todo (fst (Spec.currents s ivs todo)).
Proof.
  induction todo as [|[k n] todo IH]; cbn; [constructor|].
  destruct (Spec.frozen_current s ivs n) as [acc [e|]].
  - cbn. constructor; [|apply up_to_current_refl].
    split; [reflexivity|apply same_but_current_set].
  - destruct (Spec.currents s ivs todo) as [r e]. cbn in *.
    constructor; [|exact IH]. split; [reflexivity|apply same_but_current_set].
Qed.

(** The first phase does not read [current]. *)
Lemma currents_insensitive s ivs todo todo' :
  Spec.up_to_current todo todo' ->
  snd (Spec.currents s ivs todo') = snd (Spec.currents s ivs todo) /\
  (snd (Spec.currents s ivs todo) = None ->
   fst (Spec.currents s ivs todo') = fst (Spec.currents s ivs todo)).
Proof.
  induction 1 as [|[k n] [k' n'] todo todo' [Ek Hn] _ IH]; cbn; [auto|].
  cbn in Ek, Hn. subst k'.
  destruct (same_but_current_facts _ _ Hn) as (Eb & Ei & _ & Es).
  unfold Spec.frozen_current. rewrite Eb, Ei.
  destruct (Spec.sum_inputs s ivs (IZNeuron.bias n) (IZNeuron.inputs n)) as [acc [e|]]; cbn.
  - split; [reflexivity|discriminate].
  - destruct IH as [IH1 IH2].
    destruct (Spec.currents s ivs todo) as [r e], (Spec.currents s ivs todo') as [r' e'].
    cbn in *. split; [exact IH1|]. intros ->. rewrite Es, IH2; reflexivity.
Qed.

(** C5, as the code has it.  When some neuron reads a source key that is
    neither a neuron nor a supplied input, [advance] raises [KeyError] for
    such a key; nothing of the network is changed except the [current]
    fields, which the next call computes afresh, so that a later call
    behaves as it would have on the network before the failed call. *)
Theorem C5_missing_input_raises dt net :
  (exists k n i w,
     In (k, n) (IZNN.neurons net) /\ In (i, w) (IZNeuron.inputs n) /\
     Dict.get i (IZNN.neurons net) = None /\
     Dict.get i (IZNN.input_values net) = None) ->
  exists ns' i,
    IZNN.advance dt net = (IZNN.set_neurons net ns', inl (KeyError i)) /\
    Dict.get i (IZNN.neurons net) = None /\
    Dict.get i (IZNN.input_values net) = None /\
    (exists k n w, In (k, n) (IZNN.neurons net) /\ In (i, w) (IZNeuron.inputs n)) /\
    Spec.up_to_current (IZNN.neurons net) ns' /\
    forall dt' ivs',
      let retry := IZNN.advance dt' (IZNN.set_input_values (IZNN.set_neurons net ns') ivs') in
      let fresh := IZNN.advance dt' (IZNN.set_input_values net ivs') in
      snd retry = snd fresh /\
      (forall outs, snd fresh = inr outs ->
         IZNN.neurons (fst retry) = IZNN.neurons (fst fresh)).
Proof.
  intros (k & n & i & w & I & I' & G1 & G2).
  rewrite advance_unfold.
  pose proof (currents_fails _ _ _ k n i w I I' G1 G2) as Hf.
  pose proof (currents_up_to_current (IZNN.neurons net) (IZNN.input_values net)
                (IZNN.neurons net)) as Hu.
  destruct (Spec.currents (IZNN.neurons net) (IZNN.input_values net) (IZNN.neurons net))
    as [ns' [e|]] eqn:E; [|destruct Hf; reflexivity].
  cbn in Hu.
  destruct (currents_error (IZNN.neurons net) (IZNN.input_values net) (IZNN.neurons net) e)
    as (k1 & n1 & i1 & w1 & J & J' & -> & H1 & H2).
  { now rewrite E. }
  exists ns', i1. split; [reflexivity|]. split; [exact H1|]. split; [exact H2|].
  split; [exists k1, n1, w1; auto|]. split; [exact Hu|].
  intros dt' ivs' retry fresh. subst retry fresh.
  rewrite !advance_unfold. cbn [IZNN.neurons IZNN.input_values IZNN.outputs
    IZNN.set_neurons IZNN.set_input_values].
  assert (Ec : Spec.currents ns' ivs' ns' = Spec.currents (IZNN.neurons net) ivs' ns').
  { apply currents_ext. intros ? ? j ? _ _.
    apply source_value_view, up_to_current_view, Hu. }
  rewrite Ec.
  destruct (currents_insensitive (IZNN.neurons net) ivs' _ _ Hu) as [S1 S2].
  destruct (Spec.currents (IZNN.neurons net) ivs' ns') as [r' e'],
           (Spec.currents (IZNN.neurons net) ivs' (IZNN.neurons net)) as [r e0].
  cbn in S1, S2. subst e'. destruct e0 as [e0|]; cbn.
  - split; [reflexivity|discriminate].
  - rewrite (S2 eq_refl). split; reflexivity.
Qed.

(** The half-bound network raises [KeyError] for the key -2. *)
Lemma C5_half_bound_raises :
  exists ns' i,
    IZNN.advance 0.05 Examples.half_bound =
    (IZNN.set_neurons Examples.half_bound ns', inl (KeyError i)) /\
    Dict.get i (IZNN.input_values Examples.half_bound) = None.
Proof.
  destruct (C5_missing_input_raises 0.05 Examples.half_bound)
    as (ns' & i & Ea & _ & G & _).
  - exists 0%Z, (IZNeuron.init 1 0.02 0.20 (-65.0) 8.00 [((-1)%Z, 1.0); ((-2)%Z, 1.0)]),
      (-2)%Z, 1.0.
    split; [left; reflexivity|]. split; [right; left; reflexivity|].
    split; reflexivity.
  - exists ns', i. split; [exact Ea|exact G].
Defined.

(** C5 as stated fails: after the failed call on the half-bound network
    the current of neuron 0 is 6.0, so the network is neither the one the
    call started from nor that network reset (both have current 1.0). *)
Lemma C5_network_changed_by_failed_call :
  let net := Examples.half_bound in
  let net' := fst (IZNN.advance 0.05 net) in
  snd (IZNN.advance 0.05 net) = inl (KeyError (-2)%Z) /\
  option_map IZNeuron.current (Dict.get 0%Z (IZNN.neurons net')) = Some 6 /\
  option_map IZNeuron.current (Dict.get 0%Z (IZNN.neurons net)) = Some 1 /\
  option_map IZNeuron.current (Dict.get 0%Z (IZNN.neurons (IZNN.reset net))) = Some 1 /\
  net' <> net /\ net' <> IZNN.reset net.
Proof.
  cbv zeta.
  assert (N : forall m,
             option_map IZNeuron.current (Dict.get 0%Z (IZNN.neurons m)) = Some 1 ->
             fst (IZNN.advance 0.05 Examples.half_bound) <> m).
  { intros m Hm E. rewrite <- E in Hm.
    apply (f_equal (fun o => match o with
                             | Some x => PrimFloat.eqb x 1
                             | None => true
                             end)) in Hm.
    vm_compute in Hm. discriminate Hm. }
  repeat split; try (vm_compute; reflexivity); apply N; vm_compute; reflexivity.
Qed.

(** ** [IZNN.set_inputs] *)

Lemma assign_not_in items : forall ivs k,
  ~ In k (map fst items) ->
  Dict.get k (IZNN.assign ivs items) = Dict.get k ivs.
Proof.
  induction items as [|[i x] items IH]; intros ivs k N; cbn; [reflexivity|].
  rewrite IH by (intros I; apply N; now right).
  apply get_set_other. intros ->. apply N. now left.
Qed.

Lemma assign_index keys : forall values ivs i,
  length values = length keys ->
  (i < length keys)%nat ->
  (forall j, (i < j < length keys)%nat -> nth j keys 0%Z <> nth i keys 0%Z) ->
  Dict.get (nth i keys 0%Z) (IZNN.assign ivs (combine keys values)) = Some (nth i values 0).
Proof.
  induction keys as [|k keys IH]; intros values ivs i El Hi Hlast; [cbn in Hi; lia|].
  destruct values as [|x values]; [discriminate|]. cbn in El, Hi.
  destruct i as [|i]; cbn [nth combine IZNN.assign].
  - rewrite assign_not_in; [apply get_set_same|].
    intros I. apply in_map_iff in I. destruct I as ([k' x'] & E & I). cbn in E. subst k'.
    apply in_combine_l in I.
    destruct (In_nth _ _ 0%Z I) as (j & Hj & Ej).
    apply (Hlast (S j)); [cbn; lia|exact Ej].
  - apply IH; [lia|lia|].
    intros j Hj. apply (Hlast (S j)). cbn. lia.
Qed.

(** C6.  A call of [set_inputs] with a number of values other than the
    number of input keys raises [AssertionError] and leaves the network,
    [input_values] included, as it was.  With the right number of values
    the call returns and has made the assignments
    [input_values[input_keys[i]] = values[i]] in index order: in
    [input_values] of the network after the call each input key holds the
    value of its last index, and every other key holds what it held
    before; the neurons, the input keys and the output keys are as they
    were. *)
Theorem C6_set_inputs self values :
  (length values <> length (IZNN.inputs self) ->
     IZNN.set_inputs self values = (self, Some AssertionError)) /\
  (length values = length (IZNN.inputs self) ->
     exists ivs',
       IZNN.set_inputs self values = (IZNN.set_input_values self ivs', None) /\
       (forall i, (i < length values)%nat ->
          (forall j, (i < j < length values)%nat ->
             nth j (IZNN.inputs self) 0%Z <> nth i (IZNN.inputs self) 0%Z) ->
          Dict.get (nth i (IZNN.inputs self) 0%Z) ivs' = Some (nth i values 0)) /\
       (forall k, ~ In k (IZNN.inputs self) ->
          Dict.get k ivs' = Dict.get k (IZNN.input_values self)) /\
       snd (IZNN.set_inputs self values) = None /\
       IZNN.input_values (fst (IZNN.set_inputs self values)) = ivs' /\
       (forall i, (i < length values)%nat ->
          (forall j, (i < j < length values)%nat ->
             nth j (IZNN.inputs self) 0%Z <> nth i (IZNN.inputs self) 0%Z) ->
          Dict.get (nth i (IZNN.inputs self) 0%Z)
            (IZNN.input_values (fst (IZNN.set_inputs self values))) =
          Some (nth i values 0)) /\
       (forall k, ~ In k (IZNN.inputs self) ->
          Dict.get k (IZNN.input_values (fst (IZNN.set_inputs self values))) =
          Dict.get k (IZNN.input_values self)) /\
       IZNN.neurons (fst (IZNN.set_inputs self values)) = IZNN.neurons self /\
       IZNN.inputs (fst (IZNN.set_inputs self values)) = IZNN.inputs self /\
       IZNN.outputs (fst (IZNN.set_inputs self values)) = IZNN.outputs self).
Proof.
  unfold IZNN.set_inputs. split; intros H.
  - destruct (Nat.eqb_spec (length values) (length (IZNN.inputs self))); [contradiction|].
    reflexivity.
  - rewrite (proj2 (Nat.eqb_eq _ _) H).
    assert (Hidx : forall i, (i < length values)%nat ->
              (forall j, (i < j < length values)%nat ->
                 nth j (IZNN.inputs self) 0%Z <> nth i (IZNN.inputs self) 0%Z) ->
              Dict.get (nth i (IZNN.inputs self) 0%Z)
                (IZNN.assign (IZNN.input_values self) (combine (IZNN.inputs self) values)) =
              Some (nth i values 0)).
    { intros i Hi Hlast. rewrite H in Hi. apply assign_index; [exact H|exact Hi|].
      intros j Hj. apply Hlast. rewrite H. exact Hj. }
    assert (Hother : forall k, ~ In k (IZNN.inputs self) ->
              Dict.get k
                (IZNN.assign (IZNN.input_values self) (combine (IZNN.inputs self) values)) =
              Dict.get k (IZNN.input_values self)).
    { intros k N. apply assign_not_in. intros I. apply N.
      apply in_map_iff in I. destruct I as ([k' x'] & E & I). cbn in E. subst k'.
      now apply in_combine_l in I. }
    eexists. split; [reflexivity|].
    cbn [fst snd IZNN.set_input_values IZNN.input_values IZNN.neurons IZNN.inputs
         IZNN.outputs].
    repeat split; assumption || reflexivity.
Qed.

(** A list one value short is rejected; a list of the right length
    returns, and afterwards [input_values] of the Scenario C network holds
    3.0 under the key -1, where it held 10.0. *)
Lemma C6_short_and_matching :
  IZNN.set_inputs Examples.half_bound [1.0] = (Examples.half_bound, Some AssertionError) /\
  (exists ivs',
    IZNN.set_inputs Examples.driven [3.0] = (IZNN.set_input_values Examples.driven ivs', None) /\
    Dict.get (-1)%Z ivs' = Some 3.0) /\
  snd (IZNN.set_inputs Examples.driven [3.0]) = None /\
  Dict.get (-1)%Z (IZNN.input_values (fst (IZNN.set_inputs Examples.driven [3.0]))) =
    Some 3.0 /\
  Dict.get (-1)%Z (IZNN.input_values Examples.driven) = Some 10.0.
Proof.
  split.
  - apply (proj1 (C6_set_inputs Examples.half_bound [1.0])). vm_compute. lia.
  - destruct (proj2 (C6_set_inputs Examples.driven [3.0]) eq_refl)
      as (ivs' & E & G & _ & Hs & _ & G' & _).
    split; [|split; [exact Hs|split; [|reflexivity]]].
    + exists ivs'. split; [exact E|].
      apply (G 0%nat); [cbn; lia|]. intros j Hj. cbn in Hj. lia.
    + apply (G' 0%nat); [cbn; lia|]. intros j Hj. cbn in Hj. lia.
Defined.

(** ** The [fired] flag *)

Lemma advance_all_fired dt ns k n :
  In (k, n) (IZNN.advance_all dt ns) ->
  IZNeuron.fired n = 0 \/ IZNeuron.fired n = 1.
Proof.
  unfold IZNN.advance_all. intros I. apply in_map_iff in I.
  destruct I as ([k' n'] & E & _). inversion E; subst. apply advance_fired.
Qed.

(** C7.  [fired] is 0.0 in a fresh neuron and after [IZNeuron.reset], 0.0
    or 1.0 after [IZNeuron.advance], 0.0 or 1.0 in every neuron of a
    network after a completed [Network.advance], and 0.0 in every neuron
    after [Network.reset]. *)
Theorem C7_fired_is_binary :
  (forall bias a b c d ins, IZNeuron.fired (IZNeuron.init bias a b c d ins) = 0) /\
  (forall dt n, IZNeuron.fired (IZNeuron.advance dt n) = 0 \/
                IZNeuron.fired (IZNeuron.advance dt n) = 1) /\
  (forall n, IZNeuron.fired (IZNeuron.reset n) = 0) /\
  (forall dt net net' outs,
     IZNN.advance dt net = (net', inr outs) ->
     forall k n, In (k, n) (IZNN.neurons net') ->
       IZNeuron.fired n = 0 \/ IZNeuron.fired n = 1) /\
  (forall net k n, In (k, n) (IZNN.neurons (IZNN.reset net)) -> IZNeuron.fired n = 0).
Proof.
  split; [reflexivity|]. split; [exact advance_fired|]. split; [reflexivity|]. split.
  - intros dt net net' outs E k n I. unfold IZNN.advance in E.
    destruct (IZNN.compute_currents [] (IZNN.neurons net) (IZNN.input_values net))
      as [ns [e|]]; [discriminate|].
    inversion E; subst. cbn in I. eapply advance_all_fired, I.
  - intros net k n I. cbn in I. apply in_map_iff in I.
    destruct I as ([k' n'] & E & _). inversion E; subst. reflexivity.
Qed.

(** After one step of the Scenario C network its neuron has not fired. *)
Lemma C7_driven_network :
  Forall (fun kn => IZNeuron.fired (snd kn) = 0 \/ IZNeuron.fired (snd kn) = 1)
         (IZNN.neurons (fst (IZNN.advance 0.05 Examples.driven))).
Proof.
  apply Forall_forall. intros [k n] I.
  refine (proj1 (proj2 (proj2 (proj2 C7_fired_is_binary))) 0.05 Examples.driven
            (fst (IZNN.advance 0.05 Examples.driven)) [0] _ k n I).
  vm_compute. reflexivity.
Defined.

(** ** Precedence of neurons over supplied inputs *)

Lemma source_value_neuron ns ivs i n :
  Dict.get i ns = Some n -> IZNN.source_value ns ivs i = inr (IZNeuron.fired n).
Proof. unfold IZNN.source_value. now intros ->. Qed.

(** C10.  A source key that names a neuron is read from that neuron's
    [fired], whatever [input_values] holds for the key: the value supplied
    for such a key changes neither the neurons after [advance] nor what
    the call returns or raises. *)
Theorem C10_neuron_takes_precedence dt net k n x :
  Dict.get k (IZNN.neurons net) = Some n ->
  (forall ivs, IZNN.source_value (IZNN.neurons net) ivs k = inr (IZNeuron.fired n)) /\
  let net_x := IZNN.set_input_values net (Dict.set k x (IZNN.input_values net)) in
  IZNN.source_value (IZNN.neurons net_x) (IZNN.input_values net_x) k =
    inr (IZNeuron.fired n) /\
  Dict.get k (IZNN.input_values net_x) = Some x /\
  IZNN.neurons (fst (IZNN.advance dt net_x)) = IZNN.neurons (fst (IZNN.advance dt net)) /\
  snd (IZNN.advance dt net_x) = snd (IZNN.advance dt net).
Proof.
  intros G. split; [intros ivs; now apply source_value_neuron|].
  cbv zeta. split; [now apply source_value_neuron|]. split; [apply get_set_same|].
  rewrite !advance_unfold.
  cbn [IZNN.neurons IZNN.input_values IZNN.outputs IZNN.set_input_values].
  assert (E : Spec.currents (IZNN.neurons net) (Dict.set k x (IZNN.input_values net))
                (IZNN.neurons net) =
              Spec.currents (IZNN.neurons net) (IZNN.input_values net) (IZNN.neurons net)).
  { apply currents_ext. intros _ _ i _ _ _. unfold IZNN.source_value.
    destruct (Dict.get i (IZNN.neurons net)) eqn:Gi; [reflexivity|].
    rewrite get_set_other; [reflexivity|]. intros ->. congruence. }
  rewrite E. clear E.
  destruct (Spec.currents (IZNN.neurons net) (IZNN.input_values net) (IZNN.neurons net))
    as [ns [e|]]; cbn; split; reflexivity.
Qed.

(** In the Scenario C network, a value supplied under the key 0 of its
    neuron is not read. *)
Lemma C10_driven_network :
  snd (IZNN.advance 0.05
         (IZNN.set_input_values Examples.driven
            (Dict.set 0%Z 1000 (IZNN.input_values Examples.driven)))) =
  snd (IZNN.advance 0.05 Examples.driven).
Proof.
  exact (proj2 (proj2 (proj2 (proj2
    (C10_neuron_takes_precedence 0.05 Examples.driven 0%Z
       (IZNeuron.init 0 0.02 0.20 (-65.0) 8.00 [((-1)%Z, 1.0); (0%Z, 0.5)]) 1000
       eq_refl))))).
Defined.

(** ** [IZNN.create] *)

Lemma set_append {V} (k : NodeKey) (x : V) (m : Dict.t V) :
  ~ In k (Dict.keys m) -> Dict.set k x m = m ++ [(k, x)].
Proof.
  induction m as [|[k' y] m IH]; cbn; intros N; [reflexivity|].
  destruct (Z.eqb_spec k k') as [->|_]; [destruct N; now left|].
  rewrite IH; [reflexivity|]. intros I. apply N. now right.
Qed.

Lemma nonempty_app {A} (l : list A) (x : A) : Spec.nonempty (l ++ [x]) = Some (l ++ [x]).
Proof. destruct l; reflexivity. Qed.

Lemma nonempty_None {A} (l : list A) : Spec.nonempty l = None -> l = [].
Proof. destruct l; [reflexivity|discriminate]. Qed.

Lemma nonempty_Some {A} (l l' : list A) : Spec.nonempty l = Some l' -> l' = l.
Proof. destruct l; [discriminate|]. now intros E; inversion E. Qed.

(** One round of the gathering loop appends the pair of [cg] under its
    destination when [cg] is expressed there, and does nothing otherwise. *)
Lemma gather_one_get required (L : NodeKey -> list (NodeKey * float)) acc cg :
  (forall k, Dict.get k acc = Spec.nonempty (L k)) ->
  forall k, Dict.get k (IZNN.gather_one required acc cg) =
            Spec.nonempty (L k ++ Spec.expressed_inputs required [cg] k).
Proof.
  intros Hacc k. unfold IZNN.gather_one, Spec.expressed_inputs, Spec.expressed.
  destruct cg as [[i o] w en]. cbn [key weight enabled fst snd filter].
  destruct en; cbn [negb andb]; [|now rewrite app_nil_r].
  assert (Hadd : Dict.get k
     match Dict.get o acc with
     | Some l => Dict.set o (l ++ [(i, w)]) acc
     | None => Dict.set o [(i, w)] acc
     end = Spec.nonempty (L k ++ (if Z.eqb o k then [(i, w)] else []))).
  { destruct (Z.eqb_spec o k) as [->|N].
    - rewrite nonempty_app.
      pose proof (Hacc k) as Hk.
      destruct (Dict.get k acc) as [l|]; rewrite get_set_same.
      + symmetry in Hk. apply nonempty_Some in Hk. now subst.
      + symmetry in Hk. apply nonempty_None in Hk. now rewrite Hk.
    - rewrite app_nil_r, <- Hacc.
      destruct (Dict.get o acc); apply get_set_other; congruence. }
  destruct (mem o required), (mem i required); cbn [negb andb orb].
  4:{ now rewrite app_nil_r. }
  all: rewrite Hadd; destruct (Z.eqb o k); reflexivity.
Qed.

Lemma expressed_inputs_app required l1 l2 k :
  Spec.expressed_inputs required (l1 ++ l2) k =
  Spec.expressed_inputs required l1 k ++ Spec.expressed_inputs required l2 k.
Proof.
  unfold Spec.expressed_inputs. now rewrite filter_app, map_app.
Qed.

Lemma gather_get_from required cgs : forall (L : NodeKey -> list (NodeKey * float)) acc,
  (forall k, Dict.get k acc = Spec.nonempty (L k)) ->
  forall k, Dict.get k (fold_left (IZNN.gather_one required) cgs acc) =
            Spec.nonempty (L k ++ Spec.expressed_inputs required cgs k).
Proof.
  induction cgs as [|cg cgs IH]; intros L acc Hacc k; cbn [fold_left].
  - unfold Spec.expressed_inputs. cbn. now rewrite app_nil_r.
  - rewrite (IH (fun k => L k ++ Spec.expressed_inputs required [cg] k)).
    + rewrite <- app_assoc, <- expressed_inputs_app. reflexivity.
    + now apply gather_one_get.
Qed.

(** What the gathering loop leaves in [node_inputs]. *)
Lemma gather_get required cgs k :
  Dict.get k (IZNN.gather required cgs) =
  Spec.nonempty (Spec.expressed_inputs required cgs k).
Proof.
  unfold IZNN.gather.
  now rewrite (gather_get_from required cgs (fun _ => []) []).
Qed.

Lemma gathered_inputs required cgs k :
  match Dict.get k (IZNN.gather required cgs) with
  | Some l => l
  | None => []
  end = Spec.expressed_inputs required cgs k.
Proof.
  rewrite gather_get. now destruct (Spec.expressed_inputs required cgs k).
Qed.

(** The building loop appends one neuron per required key. *)
Lemma build_ok genome node_inputs required : forall acc,
  NoDup required ->
  (forall k, In k required -> ~ In k (Dict.keys acc)) ->
  (forall k, In k required -> Dict.get k (nodes genome) <> None) ->
  exists r,
    IZNN.build genome node_inputs required acc = inr (acc ++ r) /\
    Forall2 (fun k kn => fst kn = k /\ Spec.neuron_of genome node_inputs k = Some (snd kn))
            required r.
Proof.
  induction required as [|k required IH]; intros acc ND Hfresh Hnodes; cbn [IZNN.build].
  - exists []. split; [now rewrite app_nil_r|constructor].
  - inversion ND as [|? ? Hk ND']; subst.
    destruct (Dict.get k (nodes genome)) as [ng|] eqn:G;
      [|destruct (Hnodes k (or_introl eq_refl) G)].
    rewrite set_append by (apply Hfresh; now left).
    destruct (IH (acc ++ [(k, IZNeuron.init (IZNodeGene.bias ng) (IZNodeGene.a ng)
                               (IZNodeGene.b ng) (IZNodeGene.c ng) (IZNodeGene.d ng)
                               match Dict.get k node_inputs with
                               | Some l => l
                               | None => []
                               end)]) ND') as (r & E & F).
    { intros k' I. unfold Dict.keys. rewrite map_app, in_app_iff. cbn.
      intros [J|[J|[]]]; [exact (Hfresh k' (or_intror I) J)|]. subst. contradiction. }
    { intros k' I. apply Hnodes. now right. }
    eexists. split; [rewrite E, <- app_assoc; reflexivity|].
    constructor; [|exact F]. split; [reflexivity|].
    unfold Spec.neuron_of. now rewrite G.
Qed.

Lemma built_keys {V} (P : NodeKey -> V -> Prop) required (r : Dict.t V) :
  Forall2 (fun k kn => fst kn = k /\ P k (snd kn)) required r ->
  Dict.keys r = required.
Proof.
  unfold Dict.keys.
  induction 1 as [|k [k' x] required r [E _] _ IH]; cbn [map fst]; [reflexivity|].
  cbn in E. now rewrite E, IH.
Qed.

Lemma built_get {V} (P : NodeKey -> V -> Prop) required (r : Dict.t V) k :
  Forall2 (fun k kn => fst kn = k /\ P k (snd kn)) required r ->
  In k required ->
  exists x, Dict.get k r = Some x /\ P k x.
Proof.
  induction 1 as [|k0 [k' x] required r [E HP] _ IH]; cbn; [tauto|].
  cbn in E, HP. subst k'. intros I.
  destruct (Z.eqb_spec k k0) as [->|N]; [eauto|].
  destruct I as [I|I]; [congruence|auto].
Qed.

(** For a required key the endpoint test is met by the destination. *)
Lemma expressed_inputs_required required cgs k :
  In k required ->
  Spec.expressed_inputs required cgs k =
  map (fun cg => (fst (key cg), weight cg))
      (filter (fun cg => enabled cg && Z.eqb (snd (key cg)) k) cgs).
Proof.
  intros I. unfold Spec.expressed_inputs. f_equal. apply filter_ext. intros cg.
  unfold Spec.expressed.
  destruct (Z.eqb_spec (snd (key cg)) k) as [->|_].
  - rewrite (proj2 (mem_In k required) I). cbn. now rewrite !andb_true_r.
  - now rewrite !andb_false_r.
Qed.

(** C4.  Whatever set [required_for_output] returns, provided the genome
    has a node gene for each of its keys, [create] returns a network whose
    neurons are keyed by exactly the required keys, one each, in the
    iteration order of the set.  The neuron of key [k] has the parameters
    of the node gene of [k], is in its initial state, and holds as its
    input list the [(source, weight)] pairs of the enabled connections
    into [k], in the order of the connection collection, duplicates kept
    (the empty list when there is none); no other connection contributes.
    With the reachability function of the specification, Scenario B gives
    one neuron, of key 0, whose input list is [[(-1, 1.0)]]. *)
Theorem C4_create_builds_required :
  (forall required_for_output genome config,
     let required :=
       required_for_output (input_keys config) (output_keys config) (connections genome) in
     let cgs := map snd (connections genome) in
     NoDup required ->
     (forall k, In k required -> Dict.get k (nodes genome) <> None) ->
     exists net,
       IZNN.create required_for_output genome config = inr net /\
       Dict.keys (IZNN.neurons net) = required /\
       (forall k, ~ In k required -> Dict.get k (IZNN.neurons net) = None) /\
       (forall k, In k required ->
          exists ng,
            Dict.get k (nodes genome) = Some ng /\
            Dict.get k (IZNN.neurons net) =
              Some (IZNeuron.init (IZNodeGene.bias ng) (IZNodeGene.a ng) (IZNodeGene.b ng)
                      (IZNodeGene.c ng) (IZNodeGene.d ng)
                      (Spec.expressed_inputs required cgs k)) /\
            Spec.expressed_inputs required cgs k =
              map (fun cg => (fst (key cg), weight cg))
                  (filter (fun cg => enabled cg && Z.eqb (snd (key cg)) k) cgs) /\
            exists n,
              Dict.get k (IZNN.neurons net) = Some n /\
              IZNeuron.inputs n =
                map (fun cg => (fst (key cg), weight cg))
                    (filter (fun cg => enabled cg && Z.eqb (snd (key cg)) k) cgs) /\
              IZNeuron.bias n = IZNodeGene.bias ng /\
              IZNeuron.a n = IZNodeGene.a ng /\
              IZNeuron.b n = IZNodeGene.b ng /\
              IZNeuron.c n = IZNodeGene.c ng /\
              IZNeuron.d n = IZNodeGene.d ng /\
              IZNeuron.v n = IZNodeGene.c ng /\
              IZNeuron.u n = IZNodeGene.b ng * IZNodeGene.c ng /\
              IZNeuron.fired n = 0 /\
              IZNeuron.current n = IZNodeGene.bias ng) /\
       IZNN.inputs net = input_keys config /\
       IZNN.outputs net = output_keys config /\
       IZNN.input_values net = []) /\
  IZNN.create Spec.required_for_output Examples.pruning_genome Examples.pruning_config =
    inr (IZNN.mk [(0%Z, IZNeuron.init 0 0.02 0.20 (-65.0) 8.00 [((-1)%Z, 1.0)])]
           [(-1)%Z; (-2)%Z] [0%Z] []) /\
  (exists net,
     IZNN.create Spec.required_for_output Examples.pruning_genome Examples.pruning_config =
       inr net /\
     map (fun kn => (fst kn, IZNeuron.inputs (snd kn))) (IZNN.neurons net) =
       [(0%Z, [((-1)%Z, 1.0)])]).
Proof.
  split; [|split; [vm_compute; reflexivity|eexists; split; vm_compute; reflexivity]].
  intros rfo genome config required cgs ND Hnodes.
  unfold IZNN.create. fold required. fold cgs.
  destruct (build_ok genome (IZNN.gather required cgs) required [] ND) as (r & E & F).
  { intros k _ []. }
  { exact Hnodes. }
  rewrite E. cbn [app]. exists (IZNN.init r (input_keys config) (output_keys config)).
  split; [reflexivity|]. cbn [IZNN.neurons IZNN.inputs IZNN.outputs IZNN.input_values IZNN.init].
  pose proof (built_keys (fun k n => Spec.neuron_of genome (IZNN.gather required cgs) k = Some n)
                required r F) as Hk.
  split; [exact Hk|]. split.
  { intros k N. apply get_None_iff. now rewrite Hk. }
  split; [|auto].
  intros k I.
  destruct (built_get (fun k n => Spec.neuron_of genome (IZNN.gather required cgs) k = Some n)
              required r k F I) as (n & G & Hn).
  unfold Spec.neuron_of in Hn. rewrite gathered_inputs in Hn.
  destruct (Dict.get k (nodes genome)) as [ng|]; [|discriminate].
  exists ng. split; [reflexivity|]. split; [congruence|].
  pose proof (expressed_inputs_required required cgs k I) as Hx.
  split; [exact Hx|].
  exists n. split; [exact G|].
  injection Hn as <-. cbn. rewrite Hx. repeat split; reflexivity.
Qed.

(** Scenario B, from the general statement: one neuron, of key 0, whose
    input list holds the enabled connection from -1 and nothing else. *)
Lemma C4_scenario_B :
  exists net,
    IZNN.create Spec.required_for_output Examples.pruning_genome Examples.pruning_config =
      inr net /\
    Dict.keys (IZNN.neurons net) = [0%Z] /\
    exists n,
      Dict.get 0%Z (IZNN.neurons net) = Some n /\
      IZNeuron.inputs n = [((-1)%Z, 1.0)].
Proof.
  destruct (proj1 C4_create_builds_required Spec.required_for_output
              Examples.pruning_genome Examples.pruning_config)
    as (net & E & K & _ & H & _).
  - vm_compute. constructor; [intros []|constructor].
  - intros k I. vm_compute in I. destruct I as [<-|[]]. vm_compute. discriminate.
  - exists net. split; [exact E|]. split; [exact K|].
    destruct (H 0%Z) as (ng & _ & _ & _ & n & G & Hin & _).
    + vm_compute. now left.
    + exists n. split; [exact G|]. rewrite Hin. vm_compute. reflexivity.
Defined.

(** ** Binary64 arithmetic

    The primitive operations are specified by their counterparts on
    [spec_float]; the facts below are proved there and carried back. *)

Lemma Prim2SF_infinity : Prim2SF infinity = S754_infinity false.
Proof. reflexivity. Qed.

Lemma Prim2SF_zero : Prim2SF 0 = S754_zero false.
Proof. reflexivity. Qed.

(** A finite float is a zero or a finite number. *)
Lemma is_finite_cases x :
  is_finite x = true ->
  exists s, Prim2SF x = S754_zero s \/ exists m e, Prim2SF x = S754_finite s m e.
Proof.
  unfold is_finite, is_nan, is_infinity.
  rewrite !eqb_spec, abs_spec, Prim2SF_infinity.
  destruct (Prim2SF x) as [s|[|]| |s m e]; cbn; try discriminate; intros _.
  - exists s. now left.
  - exists s. right. now exists m, e.
Qed.

(** The sign given to [binary_round_aux] shows in the sign of its result
    only. *)
Lemma SFabs_binary_round_aux s s' m e l :
  SFabs (binary_round_aux prec emax s m e l) =
  SFabs (binary_round_aux prec emax s' m e l).
Proof.
  unfold binary_round_aux.
  destruct (shr_fexp prec emax m e l) as [mrs' e'].
  destruct (shr_fexp prec emax _ e' loc_Exact) as [mrs'' e''].
  destruct (shr_m mrs''); [reflexivity| |reflexivity].
  destruct (e'' <=? emax - prec)%Z; reflexivity.
Qed.

Lemma SFabs_binary_normalize_opp m e :
  SFabs (binary_normalize prec emax (- m)%Z e false) =
  SFabs (binary_normalize prec emax m e false).
Proof.
  destruct m as [|p|p]; cbn [Z.opp binary_normalize]; [reflexivity| |];
    unfold binary_round;
    destruct (shl_align p e (fexp prec emax (Z.pos (digits2_pos p) + e))) as [mz ez];
    apply SFabs_binary_round_aux.
Qed.

Lemma SFabs_sub_swap x y :
  SFabs (SF64sub x y) = SFabs (SF64sub y x).
Proof.
  unfold SF64sub, SFsub.
  destruct x as [sx|sx| |sx mx ex], y as [sy|sy| |sy my ey];
    try reflexivity;
    try (destruct sx, sy; reflexivity).
  rewrite (Z.min_comm ey ex), <- SFabs_binary_normalize_opp.
  f_equal. f_equal. lia.
Qed.

(** [|x - y| = |y - x|] for all floats. *)
Lemma abs_sub_swap (x y : float) : abs (x - y) = abs (y - x).
Proof.
  apply Prim2SF_inj. rewrite !abs_spec, !sub_spec. apply SFabs_sub_swap.
Qed.

Lemma SFsub_diag x :
  (exists s, x = S754_zero s \/ exists m e, x = S754_finite s m e) ->
  SF64sub x x = S754_zero false.
Proof.
  intros (s & [->|(m & e & ->)]); unfold SF64sub, SFsub.
  - destruct s; reflexivity.
  - rewrite Z.sub_diag. reflexivity.
Qed.

(** [|x - x|] is [+0.0] for a finite [x]. *)
Lemma abs_sub_diag x : is_finite x = true -> abs (x - x) = 0.
Proof.
  intros F. apply Prim2SF_inj.
  rewrite abs_spec, sub_spec, (SFsub_diag _ (is_finite_cases x F)). reflexivity.
Qed.

(** [+0.0] times a finite float compares equal to zero. *)
Lemma zero_mul_finite k : is_finite k = true -> (0 * k =? 0) = true.
Proof.
  intros F. rewrite eqb_spec, mul_spec, Prim2SF_zero.
  destruct (is_finite_cases k F) as (s & [->|(m & e & ->)]); reflexivity.
Qed.

(** ** Rounding to binary64

    Multiplying by two moves the exponent and leaves the mantissa alone,
    unless the product is rounded in the subnormal range. *)

Section Rounding.
Local Open Scope Z_scope.

Lemma iter_pos_comm {A} (f : A -> A) p : forall x, iter_pos f p (f x) = f (iter_pos f p x).
Proof.
  induction p as [p IH|p IH|]; intros x; cbn; [|now rewrite !IH|reflexivity].
  now rewrite !IH.
Qed.

Lemma iter_pos_succ {A} (f : A -> A) p : forall x, iter_pos f (Pos.succ p) x = f (iter_pos f p x).
Proof.
  induction p as [p IH|p IH|]; intros x; cbn.
  - rewrite !IH. now rewrite !iter_pos_comm.
  - now rewrite !iter_pos_comm.
  - reflexivity.
Qed.

Lemma digits2_size p : digits2_pos p = Pos.size p.
Proof. induction p; cbn; congruence. Qed.

Lemma digits2_lt p : Z.pos p < 2 ^ Z.pos (digits2_pos p).
Proof.
  rewrite digits2_size. pose proof (Pos.size_gt p) as H.
  rewrite <- Pos2Z.inj_pow. lia.
Qed.

Lemma digits2_le p : 2 ^ Z.pos (digits2_pos p) <= 2 * Z.pos p.
Proof.
  rewrite digits2_size. pose proof (Pos.size_le p) as H.
  rewrite <- Pos2Z.inj_pow. lia.
Qed.

Lemma digits2_mono p q : (p <= q)%positive -> (digits2_pos p <= digits2_pos q)%positive.
Proof.
  intros H. pose proof (digits2_le p). pose proof (digits2_lt q).
  assert (2 ^ Z.pos (digits2_pos p) < 2 ^ (Z.pos (digits2_pos q) + 1)).
  { rewrite Z.pow_add_r by lia. lia. }
  apply Z.pow_lt_mono_r_iff in H2; lia.
Qed.

Lemma shr_1_digits s :
  Zdigits2 (shr_m (shr_1 s)) = Z.max 0 (Zdigits2 (shr_m s) - 1).
Proof.
  destruct s as [[|[p|p|]|[p|p|]] r t]; cbn [shr_1 shr_m Zdigits2 digits2_pos]; lia.
Qed.

Lemma iter_shr_1_digits p : forall s,
  Zdigits2 (shr_m (iter_pos shr_1 p s)) = Z.max 0 (Zdigits2 (shr_m s) - Z.pos p).
Proof.
  induction p as [|p IH] using Pos.peano_ind; intros s.
  - cbn [iter_pos]. apply shr_1_digits.
  - rewrite iter_pos_succ, shr_1_digits, IH. lia.
Qed.

Lemma round_aux_unfold sx mx ex lx :
  binary_round_aux prec emax sx mx ex lx =
  Binary64.finish sx (shr_fexp prec emax
               (round_nearest_even (shr_m (fst (shr_fexp prec emax mx ex lx)))
                  (loc_of_shr_record (fst (shr_fexp prec emax mx ex lx))))
               (snd (shr_fexp prec emax mx ex lx)) loc_Exact).
Proof.
  unfold binary_round_aux, Binary64.finish.
  destruct (shr_fexp prec emax mx ex lx) as [mrs' e']. cbn [fst snd].
  destruct (shr_fexp prec emax _ e' loc_Exact) as [mrs'' e'']. reflexivity.
Qed.

Lemma finish_double sx mrs e : Binary64.finish sx (mrs, e + 1) = Binary64.SFdouble (Binary64.finish sx (mrs, e)).
Proof.
  unfold Binary64.finish. cbn [fst snd]. destruct (shr_m mrs) as [|m|m]; try reflexivity.
  destruct (Z.leb_spec e 971); cbn [Binary64.SFdouble].
  - reflexivity.
  - destruct (Z.leb_spec (e + 1) 971); [lia|reflexivity].
Qed.

Lemma shr_nonpos mrs e n : n <= 0 -> shr mrs e n = (mrs, e).
Proof. destruct n; [reflexivity|lia|reflexivity]. Qed.

Lemma shr_fexp_unfold m e :
  shr_fexp prec emax m e loc_Exact =
  shr (Build_shr_record m false false) e (Z.max (Zdigits2 m + e - 53) (-1074) - e).
Proof. reflexivity. Qed.

(** second rounding stage commutes with exponent shift *)
Lemma stage2_double sx m1 e :
  -1074 <= e ->
  Binary64.finish sx (shr_fexp prec emax m1 (e + 1) loc_Exact) =
  Binary64.SFdouble (Binary64.finish sx (shr_fexp prec emax m1 e loc_Exact)).
Proof.
  intros He. rewrite !shr_fexp_unfold.
  destruct (Z_le_gt_dec (Zdigits2 m1) 53) as [Hd|Hd].
  - rewrite !shr_nonpos by lia. apply finish_double.
  - replace (Z.max (Zdigits2 m1 + (e + 1) - 53) (-1074) - (e + 1)) with (Zdigits2 m1 - 53) by lia.
    replace (Z.max (Zdigits2 m1 + e - 53) (-1074) - e) with (Zdigits2 m1 - 53) by lia.
    destruct (Zdigits2 m1 - 53) as [|p|p] eqn:Ep; try lia.
    cbn [shr]. rewrite <- finish_double. f_equal. f_equal. lia.
Qed.

Lemma shr_1_nonneg s : 0 <= shr_m s -> 0 <= shr_m (shr_1 s).
Proof.
  destruct s as [[|[p|p|]|[p|p|]] r t]; cbn [shr_1 shr_m]; lia.
Qed.

Lemma iter_shr_1_nonneg p : forall s, 0 <= shr_m s -> 0 <= shr_m (iter_pos shr_1 p s).
Proof.
  induction p as [|p IH] using Pos.peano_ind; intros s H.
  - cbn [iter_pos]. now apply shr_1_nonneg.
  - rewrite iter_pos_succ. apply shr_1_nonneg, IH, H.
Qed.

Lemma Zdigits2_bound x n : 0 <= x -> 0 <= n -> Zdigits2 x <= n -> x < 2 ^ n.
Proof.
  intros Hx Hn Hd. destruct x as [|q|q]; [|cbn in Hd|lia].
  - apply Z.pow_pos_nonneg; lia.
  - eapply Z.lt_le_trans; [apply digits2_lt|]. apply Z.pow_le_mono_r; lia.
Qed.

Lemma Zdigits2_le x n : 0 <= x -> 0 < n -> x < 2 ^ n -> Zdigits2 x <= n.
Proof.
  intros Hx Hn Hd. destruct x as [|q|q]; cbn; [lia| |lia].
  pose proof (digits2_le q) as H.
  assert (H2 : 2 ^ Z.pos (digits2_pos q) < 2 ^ (n + 1)).
  { rewrite Z.pow_add_r by lia. lia. }
  apply Z.pow_lt_mono_r_iff in H2; lia.
Qed.

Lemma round_nearest_even_bounds m l :
  m <= round_nearest_even m l <= m + 1.
Proof.
  unfold round_nearest_even. destruct l as [|[| |]]; try lia.
  destruct (Z.even m); lia.
Qed.

(** A result rounded in the subnormal range does not exceed the smallest normal number. *)
Lemma subnormal_range_small sx M E p :
  Z.pos (digits2_pos M) + E - 53 < -1074 ->
  -1074 - E = Z.pos p ->
  SFltb Binary64.min_normal (SFabs (binary_round_aux prec emax sx (Z.pos M) E loc_Exact)) = false.
Proof.
  intros Hsr Hp. rewrite round_aux_unfold, !shr_fexp_unfold. cbn [Zdigits2].
  replace (Z.max (Z.pos (digits2_pos M) + E - 53) (-1074) - E) with (Z.pos p) by lia.
  cbn [shr fst snd].
  set (X := iter_pos shr_1 p (Build_shr_record (Z.pos M) false false)).
  assert (HX0 : 0 <= shr_m X) by (apply iter_shr_1_nonneg; cbn; lia).
  assert (HXd : Zdigits2 (shr_m X) <= 52).
  { unfold X. rewrite iter_shr_1_digits. cbn [shr_m Zdigits2]. lia. }
  pose proof (Zdigits2_bound _ 52 HX0 ltac:(lia) HXd) as HXb.
  pose proof (round_nearest_even_bounds (shr_m X) (loc_of_shr_record X)) as Hr.
  set (m1 := round_nearest_even (shr_m X) (loc_of_shr_record X)) in *.
  assert (Hm1 : Zdigits2 m1 <= 53).
  { apply Zdigits2_le; [lia|lia|]. change (2 ^ 53) with (2 * 2 ^ 52). lia. }
  replace (E + Z.pos p) with (-1074) by lia.
  rewrite shr_nonpos by lia.
  unfold Binary64.finish. cbn [fst snd shr_m].
  destruct m1 as [|q|q]; [reflexivity| |reflexivity].
  cbn [Z.leb Z.compare SFabs]. unfold SFltb, SFcompare, Binary64.min_normal.
  rewrite Z.compare_refl.
  change (Pos.compare_cont Eq 4503599627370496 q) with (4503599627370496 ?= q)%positive.
  destruct (Pos.compare_spec 4503599627370496 q) as [H|H|H]; try reflexivity.
  change (2 ^ 52) with 4503599627370496 in *. lia.
Qed.

Lemma round_aux_scale sx M E :
  SFltb Binary64.min_normal (SFabs (binary_round_aux prec emax sx (Z.pos M) E loc_Exact)) = true ->
  binary_round_aux prec emax sx (Z.pos M) (E + 1) loc_Exact = Binary64.SFdouble (binary_round_aux prec emax sx (Z.pos M) E loc_Exact).
Proof.
  intros Hbig.
  destruct (Z_le_gt_dec (-1074) (Z.pos (digits2_pos M) + E - 53)) as [Hnr|Hsr].
  - (* normal range: both roundings shift by the same amount *)
    rewrite !round_aux_unfold, !(shr_fexp_unfold (Z.pos M)). cbn [Zdigits2].
    replace (Z.max (Z.pos (digits2_pos M) + (E + 1) - 53) (-1074) - (E + 1))
      with (Z.pos (digits2_pos M) - 53) by lia.
    replace (Z.max (Z.pos (digits2_pos M) + E - 53) (-1074) - E)
      with (Z.pos (digits2_pos M) - 53) by lia.
    destruct (Z.pos (digits2_pos M) - 53) as [|p|p] eqn:En; cbn [shr fst snd].
    + apply stage2_double. lia.
    + replace (E + 1 + Z.pos p) with (E + Z.pos p + 1) by lia. apply stage2_double. lia.
    + apply stage2_double. lia.
  - destruct (Z_le_gt_dec (-1074) E) as [HE|HE].
    + (* no shift at all *)
      rewrite !round_aux_unfold, !(shr_fexp_unfold (Z.pos M)). cbn [Zdigits2].
      rewrite !shr_nonpos by lia. cbn [fst snd]. apply stage2_double. lia.
    + destruct (-1074 - E) as [|p|p] eqn:Ep; try lia.
      rewrite (subnormal_range_small sx M E p) in Hbig by lia. discriminate.
Qed.

Lemma round_aux_xO sx M E :
  0 <= Z.max (Z.pos (digits2_pos M) + (E + 1) - 53) (-1074) - (E + 1) ->
  binary_round_aux prec emax sx (Z.pos M~0) E loc_Exact = binary_round_aux prec emax sx (Z.pos M) (E + 1) loc_Exact.
Proof.
  intros Ha. rewrite !round_aux_unfold, !(shr_fexp_unfold (Z.pos _)). cbn [Zdigits2 digits2_pos].
  replace (Z.max (Z.pos (Pos.succ (digits2_pos M)) + E - 53) (-1074) - E)
    with (Z.max (Z.pos (digits2_pos M) + (E + 1) - 53) (-1074) - (E + 1) + 1) by lia.
  destruct (Z.max (Z.pos (digits2_pos M) + (E + 1) - 53) (-1074) - (E + 1)) as [|p|p] eqn:Ea;
    try lia.
  - reflexivity.
  - replace (Z.pos p + 1) with (Z.pos (Pos.succ p)) by lia.
    cbn [shr]. rewrite iter_pos_succ, <- iter_pos_comm. cbn [shr_1 orb fst snd].
    replace (E + Z.pos (Pos.succ p)) with (E + 1 + Z.pos p) by lia. reflexivity.
Qed.

Lemma valid_finite s m e :
  valid_binary (S754_finite s m e) = true ->
  Z.max (Z.pos (digits2_pos m) + e - 53) (-1074) = e /\ e <= 971.
Proof.
  unfold SpecFloat.valid_binary, bounded, canonical_mantissa, fexp. intros H.
  apply andb_true_iff in H. destruct H as [H1 H2].
  apply Z.eqb_eq in H1. apply Z.leb_le in H2.
  change (SpecFloat.emin prec emax) with (-1074) in H1.
  change prec with 53 in *. change (emax - 53) with 971 in H2. split; assumption.
Qed.

(** shifting [n] binary zeros out of the mantissa into the exponent *)
Lemma round_aux_shift sx n : forall M E,
  (53 <= Z.pos (digits2_pos M) \/ E + Z.of_nat n <= -1074) ->
  binary_round_aux prec emax sx (Z.pos (Nat.iter n xO M)) E loc_Exact = binary_round_aux prec emax sx (Z.pos M) (E + Z.of_nat n) loc_Exact.
Proof.
  induction n as [|n IH]; intros M E H.
  - cbn [Nat.iter Z.of_nat]. now rewrite Z.add_0_r.
  - change (Nat.iter (S n) xO M) with ((Nat.iter n xO M)~0)%positive. rewrite round_aux_xO.
    + rewrite IH by lia. f_equal. lia.
    + assert (Hd : Z.pos (digits2_pos M) <= Z.pos (digits2_pos (Nat.iter n xO M))).
      { clear. induction n as [|n IH]; [cbn; lia|].
        change (Nat.iter (S n) xO M) with ((Nat.iter n xO M)~0)%positive.
        cbn [digits2_pos]. lia. }
      lia.
Qed.

Lemma round_aux_canonical sx m e :
  Z.max (Z.pos (digits2_pos m) + e - 53) (-1074) = e ->
  binary_round_aux prec emax sx (Z.pos m) e loc_Exact =
  if e <=? 971 then S754_finite sx m e else S754_infinity sx.
Proof.
  intros Hc. rewrite round_aux_unfold, !(shr_fexp_unfold (Z.pos m)). cbn [Zdigits2].
  rewrite !shr_nonpos by lia. cbn [fst snd shr_m round_nearest_even loc_of_shr_record].
  rewrite shr_fexp_unfold. cbn [Zdigits2]. rewrite shr_nonpos by lia. reflexivity.
Qed.

Lemma SFmul_two_finite s m e :
  SF64mul Binary64.two_sf (S754_finite s m e) =
  binary_round_aux prec emax s (Z.pos (Nat.iter 52 xO m)) (-51 + e) loc_Exact.
Proof. reflexivity. Qed.

Lemma SFmul_two_normal s m e :
  digits2_pos m = 53%positive -> -1074 <= e ->
  SF64mul Binary64.two_sf (S754_finite s m e) = Binary64.SFdouble (S754_finite s m e).
Proof.
  intros Hd He. rewrite SFmul_two_finite, round_aux_shift by lia.
  replace (-51 + e + Z.of_nat 52) with (e + 1) by lia.
  rewrite round_aux_canonical by lia. reflexivity.
Qed.

Lemma SFmul_two_subnormal s m :
  Z.pos (digits2_pos m) <= 52 ->
  SF64mul Binary64.two_sf (S754_finite s m (-1074)) = S754_finite s (m~0)%positive (-1074).
Proof.
  intros Hd. rewrite SFmul_two_finite.
  change (Nat.iter 52 xO m) with (Nat.iter 51 xO (m~0)%positive).
  rewrite round_aux_shift by lia.
  change (-51 + -1074 + Z.of_nat 51) with (-1074).
  rewrite round_aux_canonical by (cbn [digits2_pos]; lia). reflexivity.
Qed.

Lemma big_is_normal s m e :
  valid_binary (S754_finite s m e) = true ->
  SFltb Binary64.min_normal (SFabs (S754_finite s m e)) = true ->
  digits2_pos m = 53%positive /\ -1074 <= e.
Proof.
  intros Hv Hb. apply valid_finite in Hv. destruct Hv as [Hc He].
  unfold SFltb, SFcompare, Binary64.min_normal in Hb. cbn [SFabs] in Hb.
  destruct (Z.compare_spec (-1074) e) as [E|E|E]; try discriminate.
  - subst e.
    change (Pos.compare_cont Eq 4503599627370496 m) with (4503599627370496 ?= m)%positive in Hb.
    destruct (Pos.compare_spec 4503599627370496 m) as [H|H|H]; try discriminate.
    assert (Hm : (digits2_pos 4503599627370497 <= digits2_pos m)%positive)
      by (apply digits2_mono; lia).
    change (digits2_pos 4503599627370497) with 53%positive in Hm. lia.
  - lia.
Qed.

Lemma SFmul_two_big x :
  valid_binary x = true ->
  SFltb Binary64.min_normal (SFabs x) = true ->
  SF64mul Binary64.two_sf x = Binary64.SFdouble x.
Proof.
  intros Hv Hb. destruct x as [s|s| |s m e]; try discriminate.
  - reflexivity.
  - destruct (big_is_normal s m e Hv Hb). now apply SFmul_two_normal.
Qed.

(** The doubling law on specification floats. *)
Lemma SFmul_double x k :
  valid_binary x = true -> valid_binary k = true ->
  valid_binary (SF64mul x k) = true ->
  Binary64.SFis_finite (SF64mul Binary64.two_sf k) = true ->
  SFltb Binary64.min_normal (SFabs (SF64mul x k)) = true ->
  SF64mul x (SF64mul Binary64.two_sf k) = SF64mul Binary64.two_sf (SF64mul x k).
Proof.
  intros Hx Hk Hxk Hfin Hbig.
  rewrite (SFmul_two_big _ Hxk Hbig).
  destruct k as [sk|sk| |sk mk ek]; try discriminate.
  - (* k = 0 *) destruct x as [sx|sx| |sx mx ex]; discriminate.
  - destruct (valid_finite _ _ _ Hk) as [Hck Hek].
    destruct (Z_le_gt_dec 53 (Z.pos (digits2_pos mk))) as [Hn|Hs].
    + (* k normal *)
      assert (Hdk : digits2_pos mk = 53%positive) by lia.
      rewrite SFmul_two_normal in * by lia. cbn [Binary64.SFdouble] in *.
      destruct (Z.leb_spec (ek + 1) 971) as [Hle|Hgt]; [|discriminate].
      destruct x as [sx|sx| |sx mx ex]; try discriminate.
      * reflexivity.
      * unfold SF64mul, SFmul in *. rewrite Z.add_assoc. now apply round_aux_scale.
    + (* k subnormal *)
      assert (ek = -1074) by lia. subst ek.
      rewrite SFmul_two_subnormal in * by lia.
      destruct x as [sx|sx| |sx mx ex]; try discriminate.
      * reflexivity.
      * destruct (valid_finite _ _ _ Hx) as [Hcx Hex].
        unfold SF64mul, SFmul in *. rewrite Pos.mul_xO_r, round_aux_xO.
        -- now apply round_aux_scale.
        -- assert (Hm : (digits2_pos mx <= digits2_pos (mx * mk))%positive)
             by (apply digits2_mono; nia).
           lia.
Qed.

End Rounding.

(** ** [IZNodeGene.distance] *)

Lemma Prim2SF_two : Prim2SF 2 = Binary64.two_sf.
Proof. reflexivity. Qed.

Lemma Prim2SF_min_normal : Prim2SF 0x1p-1022 = Binary64.min_normal.
Proof. reflexivity. Qed.

(** [s * (2 * k) = 2 * (s * k)] when [2 * k] does not overflow and
    [s * k] lies above the smallest normal number. *)
Lemma mul_double (s k : float) :
  is_finite (2 * k) = true ->
  (0x1p-1022 <? abs (s * k)) = true ->
  s * (2 * k) = 2 * (s * k).
Proof.
  intros Hfin Hbig. apply Prim2SF_inj.
  rewrite ltb_spec, abs_spec, Prim2SF_min_normal, mul_spec in Hbig.
  apply is_finite_cases in Hfin. rewrite mul_spec, Prim2SF_two in Hfin.
  rewrite !mul_spec, Prim2SF_two.
  apply SFmul_double; try apply Prim2SF_valid.
  - rewrite <- mul_spec. apply Prim2SF_valid.
  - destruct Hfin as (sg & [->|(m & e & ->)]); reflexivity.
  - exact Hbig.
Qed.

(** C9, as binary64 arithmetic has it.  [distance] is the sum of the four
    absolute differences of [a], [b], [c] and [d] times the coefficient,
    whatever the biases; it is symmetric for all inputs; [distance x x k]
    compares equal to zero when the four parameters of [x] and [k] are
    finite; and [distance x y (2k) = 2 * distance x y k] when [2k] does not
    overflow and [distance x y k] is above the smallest normal number
    [2^-1022] in magnitude. *)
Theorem C9_distance_properties (x y : IZNodeGene.t) (k : float) :
  IZNodeGene.distance x y k =
    (abs (IZNodeGene.a x - IZNodeGene.a y) + abs (IZNodeGene.b x - IZNodeGene.b y) +
     abs (IZNodeGene.c x - IZNodeGene.c y) + abs (IZNodeGene.d x - IZNodeGene.d y)) * k /\
  (forall bias_x bias_y,
     IZNodeGene.distance
       (IZNodeGene.mk bias_x (IZNodeGene.a x) (IZNodeGene.b x) (IZNodeGene.c x) (IZNodeGene.d x))
       (IZNodeGene.mk bias_y (IZNodeGene.a y) (IZNodeGene.b y) (IZNodeGene.c y) (IZNodeGene.d y))
       k = IZNodeGene.distance x y k) /\
  IZNodeGene.distance x y k = IZNodeGene.distance y x k /\
  (is_finite (IZNodeGene.a x) = true -> is_finite (IZNodeGene.b x) = true ->
   is_finite (IZNodeGene.c x) = true -> is_finite (IZNodeGene.d x) = true ->
   is_finite k = true ->
   (IZNodeGene.distance x x k =? 0) = true) /\
  (is_finite (2 * k) = true ->
   (0x1p-1022 <? abs (IZNodeGene.distance x y k)) = true ->
   IZNodeGene.distance x y (2 * k) = 2 * IZNodeGene.distance x y k).
Proof.
  unfold IZNodeGene.distance. cbn [IZNodeGene.a IZNodeGene.b IZNodeGene.c IZNodeGene.d].
  split; [reflexivity|]. split; [reflexivity|]. split.
  { now rewrite (abs_sub_swap (IZNodeGene.a x)), (abs_sub_swap (IZNodeGene.b x)),
      (abs_sub_swap (IZNodeGene.c x)), (abs_sub_swap (IZNodeGene.d x)). }
  split.
  - intros Fa Fb Fc Fd Fk. rewrite !abs_sub_diag by assumption.
    change (0 + 0 + 0 + 0) with 0. now apply zero_mul_finite.
  - intros Fk Hbig. now apply mul_double.
Qed.

(** The regular-spiking gene is at distance zero from itself, and doubling
    the coefficient 0.5 doubles its distance to the fast-spiking gene. *)
Lemma C9_regular_and_fast :
  (IZNodeGene.distance Examples.regular_gene Examples.regular_gene 0.5 =? 0) = true /\
  IZNodeGene.distance Examples.regular_gene Examples.fast_gene (2 * 0.5) =
    2 * IZNodeGene.distance Examples.regular_gene Examples.fast_gene 0.5.
Proof.
  destruct (C9_distance_properties Examples.regular_gene Examples.fast_gene 0.5)
    as (_ & _ & _ & _ & Hdouble).
  destruct (C9_distance_properties Examples.regular_gene Examples.regular_gene 0.5)
    as (_ & _ & _ & Hzero & _).
  split.
  - apply Hzero; reflexivity.
  - apply Hdouble; reflexivity.
Defined.

(** C9 as stated fails at extreme values.  With an infinite coefficient
    the distance of a gene to itself is NaN, not zero; with a coefficient
    whose double overflows, [distance x x (2k)] is NaN while
    [2 * distance x x k] is zero; and with the smallest subnormal
    coefficient, [distance x y (2k)] is [2^-1074] while [distance x y k]
    has been rounded to zero. *)
Lemma C9_fails_at_extreme_values :
  IZNodeGene.distance Examples.regular_gene Examples.regular_gene infinity = nan /\
  (IZNodeGene.distance Examples.regular_gene Examples.regular_gene infinity =? 0) = false /\
  IZNodeGene.distance Examples.regular_gene Examples.regular_gene (2 * 1.5e308) = nan /\
  2 * IZNodeGene.distance Examples.regular_gene Examples.regular_gene 1.5e308 = 0 /\
  IZNodeGene.distance Examples.half_gene Examples.zero_gene (2 * 0x1p-1074) = 0x1p-1074 /\
  2 * IZNodeGene.distance Examples.half_gene Examples.zero_gene 0x1p-1074 = 0 /\
  (0x1p-1074 =? 0) = false.
Proof. repeat split; vm_compute; reflexivity. Qed.

(** * Further properties *)

(** ** [IZNeuron.advance] *)

Lemma threshold_cases n :
  (PyFloat.gt (IZNeuron.v n) 30 = true /\
   IZNeuron.fired (IZNeuron.threshold n) = 1 /\
   IZNeuron.v (IZNeuron.threshold n) = IZNeuron.c n) \/
  (PyFloat.gt (IZNeuron.v n) 30 = false /\
   IZNeuron.fired (IZNeuron.threshold n) = 0 /\
   IZNeuron.v (IZNeuron.threshold n) = IZNeuron.v n).
Proof.
  unfold IZNeuron.threshold, PyFloat.gt. cbn.
  destruct (30 <? IZNeuron.v n); cbn; auto.
Qed.

Lemma integrate_c dt n n' : IZNeuron.integrate dt n = Some n' -> IZNeuron.c n' = IZNeuron.c n.
Proof.
  unfold IZNeuron.integrate.
  destruct (IZNeuron.half_step dt n) as [n1|] eqn:E1; [|discriminate].
  destruct (IZNeuron.half_step dt n1) as [n2|] eqn:E2; [|discriminate].
  apply half_step_static in E1. apply half_step_static in E2.
  intros E. inversion E; subst n'. rewrite E2, E1. reflexivity.
Qed.

(** Whichever path [advance] takes, it leaves the parameters, the input
    list and [current] of the neuron as they were. *)
Theorem advance_keeps_parameters dt n :
  IZNeuron.a (IZNeuron.advance dt n) = IZNeuron.a n /\
  IZNeuron.b (IZNeuron.advance dt n) = IZNeuron.b n /\
  IZNeuron.c (IZNeuron.advance dt n) = IZNeuron.c n /\
  IZNeuron.d (IZNeuron.advance dt n) = IZNeuron.d n /\
  IZNeuron.bias (IZNeuron.advance dt n) = IZNeuron.bias n /\
  IZNeuron.inputs (IZNeuron.advance dt n) = IZNeuron.inputs n /\
  IZNeuron.current (IZNeuron.advance dt n) = IZNeuron.current n.
Proof.
  pose proof (advance_static dt n) as H. unfold Spec.static in H.
  injection H as Ha Hb Hc Hd Hbias Hin Hcur. auto 10.
Qed.

(** The state after a step is never left above the threshold by the
    integration: a neuron that has fired sits at its reset potential [c],
    one that has not fired does not exceed 30.0, and [v] exceeds 30.0 after
    the call only when [c] itself does. *)
Theorem advance_threshold_invariant dt n :
  let n' := IZNeuron.advance dt n in
  (IZNeuron.fired n' = 1 -> IZNeuron.v n' = IZNeuron.c n) /\
  (IZNeuron.fired n' = 0 -> PyFloat.gt (IZNeuron.v n') 30 = false) /\
  (PyFloat.gt (IZNeuron.v n') 30 = true ->
     IZNeuron.fired n' = 1 /\ PyFloat.gt (IZNeuron.c n) 30 = true).
Proof.
  cbv zeta.
  assert (H : exists m, IZNeuron.advance dt n = IZNeuron.threshold m /\
                        IZNeuron.c m = IZNeuron.c n).
  { unfold IZNeuron.advance. destruct (IZNeuron.integrate dt n) as [m|] eqn:E.
    - exists m. split; [reflexivity|]. now apply integrate_c in E.
    - eexists. split; [reflexivity|]. unfold IZNeuron.at_overflow.
      destruct (IZNeuron.half_step dt n) as [n1|] eqn:E1; [|reflexivity].
      apply half_step_static in E1. rewrite E1. reflexivity. }
  destruct H as (m & -> & Hc).
  destruct (threshold_cases m) as [(G & F & V)|(G & F & V)]; rewrite F, V, ?Hc.
  - split; [reflexivity|]. split.
    + intros E. destruct (float_one_neq_zero E).
    + intros G'. split; [reflexivity|exact G'].
  - split.
    + intros E. symmetry in E. destruct (float_one_neq_zero E).
    + split; [intros _; exact G|]. rewrite G. discriminate.
Qed.

(** When the [try] block raises [OverflowError], whether at the first or
    at the second square, every assignment it made is overwritten: the
    call ends at [v = c], [u = b*c], [fired = 0.0] if [c] does not exceed
    30.0, and at [v = c], [u = b*c + d], [fired = 1.0] if it does. *)
Theorem advance_overflow_path dt n :
  IZNeuron.overflows dt n = true ->
  let n' := IZNeuron.advance dt n in
  IZNeuron.v n' = IZNeuron.c n /\
  IZNeuron.current n' = IZNeuron.current n /\
  (PyFloat.gt (IZNeuron.c n) 30 = false ->
     IZNeuron.u n' = IZNeuron.b n * IZNeuron.c n /\ IZNeuron.fired n' = 0) /\
  (PyFloat.gt (IZNeuron.c n) 30 = true ->
     IZNeuron.u n' = IZNeuron.b n * IZNeuron.c n + IZNeuron.d n /\ IZNeuron.fired n' = 1).
Proof.
  intros Ho. cbv zeta. rewrite (advance_on_overflow dt n Ho).
  destruct (PyFloat.gt (IZNeuron.c n) 30); cbn;
    (split; [reflexivity|]; split; [reflexivity|]; split; [intros E|intros E]);
    try discriminate; split; reflexivity.
Qed.

(** The overdriven regular-spiking neuron overflows and is reset without
    a spike. *)
Lemma advance_overflow_path_overdriven :
  IZNeuron.v (IZNeuron.advance 1 Examples.overdriven) = -65 /\
  IZNeuron.u (IZNeuron.advance 1 Examples.overdriven) = 0.20 * -65 /\
  IZNeuron.fired (IZNeuron.advance 1 Examples.overdriven) = 0.
Proof.
  destruct (advance_overflow_path 1 Examples.overdriven eq_refl) as (Hv & _ & Hlow & _).
  destruct (Hlow eq_refl) as [Hu Hf].
  split; [exact Hv|]. split; [exact Hu|exact Hf].
Defined.

(** ** [IZNN.advance], [IZNN.reset] and [IZNN.set_inputs] *)

Lemma params_advance dt n : params (IZNeuron.advance dt n) = params n.
Proof.
  pose proof (advance_static dt n) as H. unfold Spec.static in H. unfold params.
  injection H as -> -> -> -> -> -> _. reflexivity.
Qed.

Lemma params_same_but_current n n' : Spec.same_but_current n n' -> params n' = params n.
Proof. unfold Spec.same_but_current. intros <-. destruct n'; reflexivity. Qed.

Lemma up_to_current_same_params ns ns' :
  Spec.up_to_current ns ns' -> Forall2 same_params ns ns'.
Proof.
  induction 1 as [|kn kn' ns ns' [Ek Hn] _ IH]; constructor; [|exact IH].
  split; [exact Ek|]. now apply params_same_but_current.
Qed.

Lemma same_params_advance_all dt ns ns' :
  Forall2 same_params ns ns' -> Forall2 same_params ns (IZNN.advance_all dt ns').
Proof.
  unfold IZNN.advance_all.
  induction 1 as [|kn kn' ns ns' [Ek Hp] _ IH]; cbn [map]; constructor; [|exact IH].
  split; [exact Ek|]. cbn [snd]. now rewrite params_advance.
Qed.

(** What [advance] does to the neurons, whatever its outcome. *)
Lemma advance_neurons_same_params dt net :
  Forall2 same_params (IZNN.neurons net) (IZNN.neurons (fst (IZNN.advance dt net))).
Proof.
  rewrite advance_unfold.
  pose proof (currents_up_to_current (IZNN.neurons net) (IZNN.input_values net)
                (IZNN.neurons net)) as Hu.
  apply up_to_current_same_params in Hu.
  destruct (Spec.currents _ _ _) as [ns [e|]]; cbn in *; [exact Hu|].
  now apply same_params_advance_all.
Qed.

Lemma advance_other_fields dt net :
  IZNN.inputs (fst (IZNN.advance dt net)) = IZNN.inputs net /\
  IZNN.outputs (fst (IZNN.advance dt net)) = IZNN.outputs net /\
  IZNN.input_values (fst (IZNN.advance dt net)) = IZNN.input_values net.
Proof.
  rewrite advance_unfold.
  destruct (Spec.currents _ _ _) as [ns [e|]]; cbn; auto.
Qed.

Lemma same_params_keys ns ns' :
  Forall2 same_params ns ns' -> Dict.keys ns' = Dict.keys ns.
Proof.
  unfold Dict.keys.
  induction 1 as [|kn kn' ns ns' [Ek _] _ IH]; cbn [map]; [reflexivity|].
  now rewrite Ek, IH.
Qed.

(** Whether it returns or raises, [Network.advance] never adds, removes or
    reorders neurons, never changes a parameter or an input list, and never
    touches the input keys, the output keys or [input_values]. *)
Theorem network_advance_keeps_structure dt net :
  let net' := fst (IZNN.advance dt net) in
  Dict.keys (IZNN.neurons net') = Dict.keys (IZNN.neurons net) /\
  Forall2 same_params (IZNN.neurons net) (IZNN.neurons net') /\
  IZNN.inputs net' = IZNN.inputs net /\
  IZNN.outputs net' = IZNN.outputs net /\
  IZNN.input_values net' = IZNN.input_values net.
Proof.
  cbv zeta. pose proof (advance_neurons_same_params dt net) as H.
  split; [now apply same_params_keys|]. split; [exact H|].
  apply advance_other_fields.
Qed.

Lemma reset_same_params ns ns' :
  Forall2 same_params ns ns' ->
  map (fun kn => (fst kn, IZNeuron.reset (snd kn))) ns' =
  map (fun kn => (fst kn, IZNeuron.reset (snd kn))) ns.
Proof.
  induction 1 as [|kn kn' ns ns' [Ek Hp] _ IH]; cbn [map]; [reflexivity|].
  rewrite IH, Ek. f_equal. f_equal. rewrite !reset_is_init.
  unfold params in Hp. injection Hp as -> -> -> -> -> ->. reflexivity.
Qed.

(** [Network.reset] undoes any [advance], completed or failed: resetting
    after the call gives the network that resetting before it gives.  It
    is idempotent, and it keeps [input_values], so values supplied before
    the reset are still read after it. *)
Theorem network_reset_after_advance dt net :
  IZNN.reset (fst (IZNN.advance dt net)) = IZNN.reset net /\
  IZNN.reset (IZNN.reset net) = IZNN.reset net /\
  IZNN.input_values (IZNN.reset net) = IZNN.input_values net /\
  Forall (fun kn => snd kn =
            IZNeuron.init (IZNeuron.bias (snd kn)) (IZNeuron.a (snd kn)) (IZNeuron.b (snd kn))
              (IZNeuron.c (snd kn)) (IZNeuron.d (snd kn)) (IZNeuron.inputs (snd kn)))
         (IZNN.neurons (IZNN.reset net)).
Proof.
  split; [|split; [|split]].
  - unfold IZNN.reset, IZNN.set_neurons.
    destruct (advance_other_fields dt net) as (-> & -> & ->).
    now rewrite (reset_same_params _ _ (advance_neurons_same_params dt net)).
  - unfold IZNN.reset, IZNN.set_neurons. cbn. f_equal.
    rewrite map_map. apply map_ext. intros kn. reflexivity.
  - reflexivity.
  - unfold IZNN.reset. cbn. apply Forall_forall. intros kn I.
    apply in_map_iff in I. destruct I as (kn0 & <- & _). reflexivity.
Qed.

Lemma currents_success s ivs todo :
  snd (Spec.currents s ivs todo) = None ->
  fst (Spec.currents s ivs todo) =
  map (fun kn => (fst kn, IZNeuron.set_current (snd kn)
                            (fst (Spec.frozen_current s ivs (snd kn))))) todo.
Proof.
  induction todo as [|[k n] todo IH]; cbn; [reflexivity|].
  destruct (Spec.frozen_current s ivs n) as [acc [e|]]; cbn; [discriminate|].
  destruct (Spec.currents s ivs todo) as [r e]. cbn in *.
  intros ->. now rewrite IH.
Qed.

(** A completed call steps every neuron from the snapshot. *)
Lemma advance_completed dt net net' outs :
  IZNN.advance dt net = (net', inr outs) ->
  IZNN.neurons net' =
  map (Spec.step_neuron dt (IZNN.neurons net) (IZNN.input_values net)) (IZNN.neurons net).
Proof.
  rewrite advance_unfold.
  pose proof (currents_success (IZNN.neurons net) (IZNN.input_values net) (IZNN.neurons net)) as H.
  destruct (Spec.currents _ _ _) as [ns [e|]]; [discriminate|].
  cbn in H. rewrite (H eq_refl), advance_all_after_currents.
  intros E. inversion E. reflexivity.
Qed.

Lemma step_neuron_view dt s s' ivs kn :
  Spec.fired_view s = Spec.fired_view s' ->
  Spec.step_neuron dt s ivs kn = Spec.step_neuron dt s' ivs kn.
Proof.
  intros H. unfold Spec.step_neuron, Spec.frozen_current.
  rewrite (sum_inputs_ext s ivs s' ivs); [reflexivity|].
  intros i w _. now apply source_value_view.
Qed.

(** Within one call a neuron sees of the other neurons only their
    [fired] flags from before the call: in two networks with the same
    keys, the same flags and the same input values, a neuron stored at the
    same place in the same state ends the step in the same state, however
    the potentials, recovery variables and parameters of the others
    differ. *)
Theorem advance_reads_only_fired dt net1 net2 net1' net2' outs1 outs2 :
  IZNN.advance dt net1 = (net1', inr outs1) ->
  IZNN.advance dt net2 = (net2', inr outs2) ->
  Spec.fired_view (IZNN.neurons net1) = Spec.fired_view (IZNN.neurons net2) ->
  IZNN.input_values net1 = IZNN.input_values net2 ->
  forall i kn,
    nth_error (IZNN.neurons net1) i = Some kn ->
    nth_error (IZNN.neurons net2) i = Some kn ->
    nth_error (IZNN.neurons net1') i = nth_error (IZNN.neurons net2') i.
Proof.
  intros E1 E2 Hv Hi i kn N1 N2.
  rewrite (advance_completed _ _ _ _ E1), (advance_completed _ _ _ _ E2).
  rewrite !nth_error_map, N1, N2, Hi. cbn [option_map]. f_equal.
  now apply step_neuron_view.
Qed.

(** Cell 0 of the two-cell networks ends the step in the same state in
    both. *)
Lemma advance_reads_only_fired_two_cells :
  nth_error (IZNN.neurons (fst (IZNN.advance 0.05 Examples.two_cells))) 0 =
  nth_error (IZNN.neurons (fst (IZNN.advance 0.05 Examples.two_cells_shifted))) 0.
Proof.
  apply (advance_reads_only_fired 0.05 Examples.two_cells Examples.two_cells_shifted
           (fst (IZNN.advance 0.05 Examples.two_cells))
           (fst (IZNN.advance 0.05 Examples.two_cells_shifted)) [0] [0]
           eq_refl eq_refl eq_refl eq_refl 0%nat
           (0%Z, IZNeuron.init 0 0.02 0.20 (-65.0) 8.00 [(1%Z, 1.0)]) eq_refl eq_refl).
Defined.

Lemma collect_first_missing ns l1 o l2 :
  (forall o', In o' l1 -> Dict.get o' ns <> None) ->
  Dict.get o ns = None ->
  IZNN.collect ns (l1 ++ o :: l2) = inl (KeyError o).
Proof.
  intros H G. induction l1 as [|o1 l1 IH]; cbn.
  - now rewrite G.
  - destruct (Dict.get o1 ns) eqn:E; [|destruct (H o1 (or_introl eq_refl) E)].
    rewrite IH; [reflexivity|]. intros o' I. apply H. now right.
Qed.

(** An output key that names no neuron is detected only when the result
    is collected: if every source has a value, [advance] raises [KeyError]
    for the first such output key after having stepped every neuron, so
    the failed call has advanced the simulation by one step. *)
Theorem advance_stray_output_key dt net l1 o l2 :
  (forall k n i w, In (k, n) (IZNN.neurons net) -> In (i, w) (IZNeuron.inputs n) ->
     Spec.bound (IZNN.neurons net) (IZNN.input_values net) i) ->
  IZNN.outputs net = l1 ++ o :: l2 ->
  (forall o', In o' l1 -> Dict.get o' (IZNN.neurons net) <> None) ->
  Dict.get o (IZNN.neurons net) = None ->
  IZNN.advance dt net =
  (IZNN.set_neurons net
     (map (Spec.step_neuron dt (IZNN.neurons net) (IZNN.input_values net))
        (IZNN.neurons net)),
   inl (KeyError o)).
Proof.
  intros Hb Eo Hl Ho.
  rewrite advance_unfold, (currents_total _ _ _ Hb), advance_all_after_currents, Eo.
  assert (G : forall k,
             Dict.get k (map (Spec.step_neuron dt (IZNN.neurons net) (IZNN.input_values net))
                           (IZNN.neurons net)) = None <->
             Dict.get k (IZNN.neurons net) = None).
  { intros k. unfold Spec.step_neuron.
    rewrite (get_map_values
               (fun n => IZNeuron.advance dt (IZNeuron.set_current n
                  (fst (Spec.frozen_current (IZNN.neurons net) (IZNN.input_values net) n))))).
    destruct (Dict.get k (IZNN.neurons net)); cbn; split; congruence. }
  rewrite collect_first_missing; [reflexivity| |now apply G].
  intros o' I E. apply (Hl o' I). now apply G.
Qed.

(** With the stray output key 7 the call raises after stepping neuron 0. *)
Lemma advance_stray_output_key_7 :
  snd (IZNN.advance 0.05 Examples.stray_output) = inl (KeyError 7%Z) /\
  IZNN.neurons (fst (IZNN.advance 0.05 Examples.stray_output)) =
  IZNN.neurons (fst (IZNN.advance 0.05 Examples.driven)).
Proof.
  rewrite (advance_stray_output_key 0.05 Examples.stray_output [0%Z] 7%Z []).
  - split; reflexivity.
  - intros k n i w [E|[]] I. inversion E; subst; clear E.
    destruct I as [E|[E|[]]]; inversion E; subst; clear E.
    + right. discriminate.
    + left. discriminate.
  - reflexivity.
  - intros o' [<-|[]]. discriminate.
  - reflexivity.
Defined.

(** *** [set_inputs] *)

Lemma assign_get items : forall ivs k,
  Dict.get k (IZNN.assign ivs items) =
  match last_value k items with
  | Some x => Some x
  | None => Dict.get k ivs
  end.
Proof.
  induction items as [|[i x] items IH]; intros ivs k; cbn [IZNN.assign last_value];
    [reflexivity|].
  rewrite IH. destruct (last_value k items); [reflexivity|].
  destruct (Z.eqb_spec k i) as [->|N]; [apply get_set_same|now apply get_set_other].
Qed.

Lemma last_value_In k items : In k (map fst items) -> last_value k items <> None.
Proof.
  induction items as [|[i x] items IH]; cbn; [tauto|].
  intros [E|I].
  - subst i. rewrite Z.eqb_refl. destruct (last_value k items); discriminate.
  - specialize (IH I). destruct (last_value k items); [discriminate|contradiction].
Qed.

Lemma map_fst_combine {A B} (l : list A) : forall (l' : list B),
  length l' = length l -> map fst (combine l l') = l.
Proof.
  induction l as [|x l IH]; intros [|y l'] E; cbn in *; try discriminate; [reflexivity|].
  f_equal. apply IH. lia.
Qed.

Lemma NoDup_keys_set {V} (k : NodeKey) (x : V) (m : Dict.t V) :
  NoDup (Dict.keys m) -> NoDup (Dict.keys (Dict.set k x m)).
Proof.
  intros ND. rewrite keys_set. destruct (mem k (Dict.keys m)) eqn:E; [exact ND|].
  apply mem_false in E.
  apply NoDup_rev in ND. rewrite <- (rev_involutive (Dict.keys m ++ [k])).
  apply NoDup_rev. rewrite rev_app_distr. cbn. constructor; [|exact ND].
  now rewrite <- in_rev.
Qed.

Lemma NoDup_keys_assign items : forall ivs,
  NoDup (Dict.keys ivs) -> NoDup (Dict.keys (IZNN.assign ivs items)).
Proof.
  induction items as [|[i x] items IH]; intros ivs ND; cbn [IZNN.assign]; [exact ND|].
  apply IH. now apply NoDup_keys_set.
Qed.

Lemma keys_assign_bound items : forall ivs,
  (forall k, In k (map fst items) -> In k (Dict.keys ivs)) ->
  Dict.keys (IZNN.assign ivs items) = Dict.keys ivs.
Proof.
  induction items as [|[i x] items IH]; intros ivs H; cbn [IZNN.assign]; [reflexivity|].
  assert (Ek : Dict.keys (Dict.set i x ivs) = Dict.keys ivs).
  { rewrite keys_set. now rewrite (proj2 (mem_In i (Dict.keys ivs)) (H i (or_introl eq_refl))). }
  rewrite IH, Ek; [reflexivity|].
  intros k I. rewrite Ek. apply H. now right.
Qed.

(** Two dictionaries with the same keys and the same lookups are equal. *)
Lemma dict_ext {V} (m m' : Dict.t V) :
  Dict.keys m' = Dict.keys m -> NoDup (Dict.keys m) ->
  (forall k, Dict.get k m' = Dict.get k m) -> m' = m.
Proof.
  revert m'. induction m as [|[k x] m IH]; intros [|[k' x'] m'] Ek ND Hg;
    cbn in Ek; try discriminate; [reflexivity|].
  injection Ek as -> Ek. inversion ND as [|? ? Hk ND']; subst.
  pose proof (Hg k) as H0. cbn in H0. rewrite Z.eqb_refl in H0. injection H0 as ->.
  f_equal. apply IH; [exact Ek|exact ND'|].
  intros j. specialize (Hg j). cbn in Hg.
  destruct (Z.eqb_spec j k) as [E|_]; [|exact Hg].
  rewrite E, (proj2 (get_None_iff k m) Hk).
  apply get_None_iff. unfold Dict.keys in *. now rewrite Ek.
Qed.

(** A completed [set_inputs] binds every declared input key, keeps every
    key that was bound before (values of earlier calls under other keys
    stay), keeps the keys of [input_values] distinct, and touches nothing
    else of the network. *)
Theorem set_inputs_binds_inputs net values :
  length values = length (IZNN.inputs net) ->
  let net' := fst (IZNN.set_inputs net values) in
  snd (IZNN.set_inputs net values) = None /\
  (forall k, In k (IZNN.inputs net) -> Dict.get k (IZNN.input_values net') <> None) /\
  (forall k, Dict.get k (IZNN.input_values net) <> None ->
     Dict.get k (IZNN.input_values net') <> None) /\
  (NoDup (Dict.keys (IZNN.input_values net)) ->
     NoDup (Dict.keys (IZNN.input_values net'))) /\
  IZNN.neurons net' = IZNN.neurons net /\
  IZNN.inputs net' = IZNN.inputs net /\
  IZNN.outputs net' = IZNN.outputs net.
Proof.
  intros El. unfold IZNN.set_inputs. rewrite El, Nat.eqb_refl. cbn.
  split; [reflexivity|]. split; [|split; [|split; [|auto]]].
  - intros k I. rewrite assign_get.
    pose proof (last_value_In k (combine (IZNN.inputs net) values)) as H.
    rewrite (map_fst_combine _ _ El) in H. specialize (H I).
    destruct (last_value k _); [discriminate|contradiction].
  - intros k H. rewrite assign_get. destruct (last_value k _); [discriminate|exact H].
  - apply NoDup_keys_assign.
Qed.

(** Supplying one value to the unfed Scenario C network binds its key. *)
Lemma set_inputs_binds_inputs_unfed :
  snd (IZNN.set_inputs Examples.unfed [10.0]) = None /\
  Dict.get (-1)%Z (IZNN.input_values (fst (IZNN.set_inputs Examples.unfed [10.0]))) <> None.
Proof.
  destruct (set_inputs_binds_inputs Examples.unfed [10.0] eq_refl) as (Hs & Hb & _).
  split; [exact Hs|]. apply Hb. left. reflexivity.
Defined.

(** Repeating a call of [set_inputs] with the same values changes
    nothing: the second call leaves the network exactly as the first did
    (and raises again if the first raised). *)
Theorem set_inputs_idempotent net values :
  NoDup (Dict.keys (IZNN.input_values net)) ->
  IZNN.set_inputs (fst (IZNN.set_inputs net values)) values = IZNN.set_inputs net values.
Proof.
  intros ND. unfold IZNN.set_inputs.
  destruct (Nat.eqb_spec (length values) (length (IZNN.inputs net))) as [El|Nl]; cbn.
  2:{ destruct (Nat.eqb_spec (length values) (length (IZNN.inputs net))); [contradiction|].
      reflexivity. }
  rewrite El, Nat.eqb_refl. unfold IZNN.set_input_values. cbn. f_equal. f_equal.
  set (items := combine (IZNN.inputs net) values).
  apply dict_ext.
  - apply keys_assign_bound. intros k I.
    destruct (Dict.get k (IZNN.assign (IZNN.input_values net) items)) eqn:G.
    + apply get_In in G. change k with (fst (k, f)). now apply in_map.
    + rewrite assign_get in G. apply last_value_In in I.
      destruct (last_value k items); [discriminate|contradiction].
  - now apply NoDup_keys_assign.
  - intros k. rewrite !assign_get. now destruct (last_value k items).
Qed.

(** Supplying the same value twice to the Scenario C network. *)
Lemma set_inputs_idempotent_driven :
  IZNN.set_inputs (fst (IZNN.set_inputs Examples.driven [3.0])) [3.0] =
  IZNN.set_inputs Examples.driven [3.0].
Proof.
  apply (set_inputs_idempotent Examples.driven [3.0]).
  cbn. constructor; [intros []|constructor].
Defined.

(** *** [set_inputs] followed by [advance] *)

Lemma set_inputs_binds_inputs_aux net values :
  length values = length (IZNN.inputs net) ->
  snd (IZNN.set_inputs net values) = None /\
  (forall k, In k (IZNN.inputs net) ->
     Dict.get k (IZNN.input_values (fst (IZNN.set_inputs net values))) <> None) /\
  IZNN.neurons (fst (IZNN.set_inputs net values)) = IZNN.neurons net /\
  IZNN.outputs (fst (IZNN.set_inputs net values)) = IZNN.outputs net.
Proof.
  intros El. unfold IZNN.set_inputs. rewrite El, Nat.eqb_refl. cbn.
  split; [reflexivity|]. split; [|auto].
  intros k I. rewrite assign_get.
  pose proof (last_value_In k (combine (IZNN.inputs net) values)) as H.
  rewrite (map_fst_combine _ _ El) in H. specialize (H I).
  destruct (last_value k _); [discriminate|contradiction].
Qed.

Lemma stepped_outputs_binary dt ns ivs outputs outs :
  Forall2 (fun o x => exists n', Dict.get o (map (Spec.step_neuron dt ns ivs) ns) = Some n' /\
                                 x = IZNeuron.fired n')
          outputs outs ->
  Forall binary outs.
Proof.
  intros F. induction F as [|o x l l' (n' & G & ->) _ IH]; constructor; [|exact IH].
  apply get_In, in_map_iff in G. destruct G as ([k n] & E & _).
  unfold Spec.step_neuron in E. cbn in E. inversion E. apply advance_fired.
Qed.

(** When every key read by a neuron is a neuron or a declared input key,
    and every output key is a neuron, a call of [set_inputs] with the
    right number of values followed by [advance] cannot raise: it returns
    one value per output key, each 0.0 or 1.0. *)
Theorem set_inputs_then_advance dt net values :
  length values = length (IZNN.inputs net) ->
  (forall k n i w, In (k, n) (IZNN.neurons net) -> In (i, w) (IZNeuron.inputs n) ->
     Dict.get i (IZNN.neurons net) <> None \/ In i (IZNN.inputs net)) ->
  (forall o, In o (IZNN.outputs net) -> Dict.get o (IZNN.neurons net) <> None) ->
  exists net2 outs,
    snd (IZNN.set_inputs net values) = None /\
    IZNN.advance dt (fst (IZNN.set_inputs net values)) = (net2, inr outs) /\
    length outs = length (IZNN.outputs net) /\
    Forall binary outs.
Proof.
  intros El Hsrc Hout.
  destruct (set_inputs_binds_inputs_aux net values El) as (Hs & Hb & En & Eo).
  set (net1 := fst (IZNN.set_inputs net values)) in *.
  destruct (advance_ok dt net1) as (outs & Ea & _ & F).
  - intros k n i w I I'. rewrite En in *.
    destruct (Hsrc k n i w I I') as [H|H]; [now left|right; now apply Hb].
  - intros o I. rewrite En. apply Hout. now rewrite <- Eo.
  - eexists. exists outs. split; [exact Hs|]. split; [exact Ea|]. split.
    + rewrite <- Eo. symmetry. exact (Forall2_length F).
    + exact (stepped_outputs_binary _ _ _ _ _ F).
Qed.

(** The unfed Scenario C network, once fed, completes a step. *)
Lemma set_inputs_then_advance_unfed :
  exists net2 outs,
    snd (IZNN.set_inputs Examples.unfed [10.0]) = None /\
    IZNN.advance 0.05 (fst (IZNN.set_inputs Examples.unfed [10.0])) = (net2, inr outs) /\
    length outs = 1%nat /\
    Forall binary outs.
Proof.
  apply (set_inputs_then_advance 0.05 Examples.unfed [10.0] eq_refl).
  - intros k n i w [E|[]] I. inversion E; subst; clear E.
    destruct I as [E|[E|[]]]; inversion E; subst; clear E.
    + right. left. reflexivity.
    + left. discriminate.
  - intros o [<-|[]]. discriminate.
Defined.

(** A network starts with no input value at all: until [set_inputs] has
    been called, [advance] raises [KeyError] as soon as some neuron reads a
    key that names no neuron, and the key it reports is such a key. *)
Theorem advance_before_set_inputs dt neurons inputs outputs :
  (exists k n i w,
     In (k, n) neurons /\ In (i, w) (IZNeuron.inputs n) /\ Dict.get i neurons = None) ->
  exists i,
    snd (IZNN.advance dt (IZNN.init neurons inputs outputs)) = inl (KeyError i) /\
    Dict.get i neurons = None /\
    exists k n w, In (k, n) neurons /\ In (i, w) (IZNeuron.inputs n).
Proof.
  intros (k & n & i & w & I & I' & G).
  rewrite advance_unfold. cbn [IZNN.init IZNN.neurons IZNN.input_values IZNN.outputs].
  pose proof (currents_fails neurons [] neurons k n i w I I' G eq_refl) as Hf.
  destruct (Spec.currents neurons [] neurons) as [ns [e|]] eqn:E; [|destruct Hf; reflexivity].
  destruct (currents_error neurons [] neurons e) as (k1 & n1 & i1 & w1 & J & J' & -> & H1 & _).
  { now rewrite E. }
  exists i1. split; [reflexivity|]. split; [exact H1|]. now exists k1, n1, w1.
Qed.

(** The unfed Scenario C network raises [KeyError] on its first step. *)
Lemma advance_before_set_inputs_unfed :
  exists i, snd (IZNN.advance 0.05 Examples.unfed) = inl (KeyError i) /\
            Dict.get i (IZNN.neurons Examples.driven) = None.
Proof.
  destruct (advance_before_set_inputs 0.05 (IZNN.neurons Examples.driven) [(-1)%Z] [0%Z])
    as (i & E & G & _).
  - exists 0%Z, (IZNeuron.init 0 0.02 0.20 (-65.0) 8.00 [((-1)%Z, 1.0); (0%Z, 0.5)]),
      (-1)%Z, 1.0.
    split; [left; reflexivity|]. split; [left; reflexivity|reflexivity].
  - exists i. split; [exact E|exact G].
Defined.

(** ** [IZNN.create], further *)

Lemma build_first_missing genome node_inputs l1 k l2 : forall acc,
  (forall k', In k' l1 -> Dict.get k' (nodes genome) <> None) ->
  Dict.get k (nodes genome) = None ->
  IZNN.build genome node_inputs (l1 ++ k :: l2) acc = inl (KeyError k).
Proof.
  induction l1 as [|k1 l1 IH]; intros acc H G; cbn.
  - now rewrite G.
  - destruct (Dict.get k1 (nodes genome)) eqn:E; [|destruct (H k1 (or_introl eq_refl) E)].
    apply IH; [|exact G]. intros k' I. apply H. now right.
Qed.

(** [create] raises [KeyError] for the first required key, in the
    iteration order of the required set, that has no node gene in the
    genome; no network is built. *)
Theorem create_missing_node_gene required_for_output genome config l1 k l2 :
  required_for_output (input_keys config) (output_keys config) (connections genome) =
    l1 ++ k :: l2 ->
  (forall k', In k' l1 -> Dict.get k' (nodes genome) <> None) ->
  Dict.get k (nodes genome) = None ->
  IZNN.create required_for_output genome config = inl (KeyError k).
Proof.
  intros Er H G. unfold IZNN.create. rewrite Er.
  now rewrite (build_first_missing genome _ l1 k l2 [] H G).
Qed.

(** Node 1 of the dangling genome is required and has no node gene. *)
Lemma create_missing_node_gene_dangling :
  IZNN.create Spec.required_for_output Examples.dangling_genome Examples.pruning_config =
  inl (KeyError 1%Z).
Proof.
  apply (create_missing_node_gene Spec.required_for_output Examples.dangling_genome
           Examples.pruning_config [0%Z] 1%Z []).
  - reflexivity.
  - intros k' [<-|[]]. discriminate.
  - reflexivity.
Defined.

Lemma expressed_inputs_In required cgs k i w :
  In (i, w) (Spec.expressed_inputs required cgs k) ->
  exists cg, In cg cgs /\ enabled cg = true /\ key cg = (i, k) /\ weight cg = w.
Proof.
  unfold Spec.expressed_inputs, Spec.expressed. intros I.
  apply in_map_iff in I. destruct I as (cg & E & I).
  apply filter_In in I. destruct I as [I H].
  apply andb_true_iff in H. destruct H as [H Hk].
  apply andb_true_iff in H. destruct H as [He _].
  apply Z.eqb_eq in Hk. inversion E; subst.
  exists cg. repeat split; try assumption. now destruct (key cg).
Qed.

(** What [create] returns when every required key has a node gene. *)
Lemma create_neurons rfo genome config :
  let required := rfo (input_keys config) (output_keys config) (connections genome) in
  let cgs := map snd (connections genome) in
  NoDup required ->
  (forall k, In k required -> Dict.get k (nodes genome) <> None) ->
  exists r,
    IZNN.create rfo genome config =
      inr (IZNN.init r (input_keys config) (output_keys config)) /\
    Dict.keys r = required /\
    forall k n, In (k, n) r ->
      IZNeuron.inputs n = Spec.expressed_inputs required cgs k.
Proof.
  intros required cgs ND Hnodes. unfold IZNN.create. fold required. fold cgs.
  destruct (build_ok genome (IZNN.gather required cgs) required [] ND) as (r & E & F).
  { intros k _ []. }
  { exact Hnodes. }
  rewrite E. cbn [app]. exists r. split; [reflexivity|].
  pose proof (built_keys (fun k n => Spec.neuron_of genome (IZNN.gather required cgs) k = Some n)
                required r F) as Hk.
  split; [exact Hk|].
  intros k n I.
  assert (Ik : In k required).
  { rewrite <- Hk. change k with (fst (k, n)). now apply in_map. }
  destruct (built_get (fun k n => Spec.neuron_of genome (IZNN.gather required cgs) k = Some n)
              required r k F Ik) as (n' & G & Hn).
  assert (n' = n).
  { rewrite (In_get k r n) in G; [now inversion G|now rewrite Hk|exact I]. }
  subst n'. unfold Spec.neuron_of in Hn. rewrite gathered_inputs in Hn.
  destruct (Dict.get k (nodes genome)) as [ng|]; [|discriminate].
  inversion Hn. reflexivity.
Qed.

(** From genome to first step.  If the required set holds the output
    keys and, with the destination of an enabled connection, its source
    unless that is an input key, and if the genome has a node gene for each
    required key, then [create], [set_inputs] with one value per input key
    and [advance] all complete: no key is missing, and the step returns one
    value per output key. *)
Theorem create_set_inputs_advance required_for_output genome config values dt :
  let required :=
    required_for_output (input_keys config) (output_keys config) (connections genome) in
  NoDup required ->
  (forall k, In k required -> Dict.get k (nodes genome) <> None) ->
  (forall o, In o (output_keys config) -> In o required) ->
  (forall cg, In cg (map snd (connections genome)) -> enabled cg = true ->
     In (snd (key cg)) required ->
     In (fst (key cg)) required \/ In (fst (key cg)) (input_keys config)) ->
  length values = length (input_keys config) ->
  exists net net2 outs,
    IZNN.create required_for_output genome config = inr net /\
    snd (IZNN.set_inputs net values) = None /\
    IZNN.advance dt (fst (IZNN.set_inputs net values)) = (net2, inr outs) /\
    length outs = length (output_keys config) /\
    Forall binary outs.
Proof.
  intros required ND Hnodes Hout Hclosed El.
  destruct (create_neurons required_for_output genome config ND Hnodes) as (r & Ec & Hk & Hin).
  fold required in Hk, Hin.
  set (net := IZNN.init r (input_keys config) (output_keys config)) in *.
  assert (Hget : forall k, In k required -> Dict.get k r <> None).
  { intros k I G. apply get_None_iff in G. apply G. now rewrite Hk. }
  destruct (set_inputs_binds_inputs_aux net values El) as (Hs & Hb & En & Eo).
  set (net1 := fst (IZNN.set_inputs net values)) in *.
  destruct (advance_ok dt net1) as (outs & Ea & _ & F).
  - intros k n i w I I'. rewrite En in *.
    cbn [net IZNN.init IZNN.neurons IZNN.inputs] in I, Hb |- *.
    rewrite (Hin k n I) in I'.
    destruct (expressed_inputs_In _ _ _ _ _ I') as (cg & Icg & Hen & Hkey & _).
    assert (Ik : In k required).
    { rewrite <- Hk. change k with (fst (k, n)). now apply in_map. }
    assert (Hdst : In (snd (key cg)) required) by (rewrite Hkey; exact Ik).
    destruct (Hclosed cg Icg Hen Hdst) as [H|H]; rewrite Hkey in H; cbn [fst snd] in H;
      [left; now apply Hget|right; now apply Hb].
  - intros o I. rewrite En. rewrite Eo in I. apply Hget, Hout, I.
  - exists net. eexists. exists outs. split; [exact Ec|]. split; [exact Hs|].
    split; [exact Ea|]. split.
    + rewrite <- (Forall2_length F), Eo. reflexivity.
    + exact (stepped_outputs_binary _ _ _ _ _ F).
Qed.

(** Scenario B, built, fed with two values and stepped once. *)
Lemma create_set_inputs_advance_scenario_B :
  exists net net2 outs,
    IZNN.create Spec.required_for_output Examples.pruning_genome Examples.pruning_config =
      inr net /\
    snd (IZNN.set_inputs net [1.0; 2.0]) = None /\
    IZNN.advance 0.05 (fst (IZNN.set_inputs net [1.0; 2.0])) = (net2, inr outs) /\
    length outs = 1%nat /\
    Forall binary outs.
Proof.
  apply (create_set_inputs_advance Spec.required_for_output Examples.pruning_genome
           Examples.pruning_config [1.0; 2.0] 0.05).
  - vm_compute. constructor; [intros []|constructor].
  - intros k I. vm_compute in I. destruct I as [<-|[]]. vm_compute. discriminate.
  - intros o I. vm_compute in I. destruct I as [<-|[]]. vm_compute. now left.
  - intros cg I _ _. vm_compute in I.
    destruct I as [<-|[<-|[]]]; right; vm_compute; auto.
  - reflexivity.
Defined.

(** ** The order of binary64 values *)

Lemma SFltb_rank x y :
  x <> S754_nan -> y <> S754_nan ->
  (SFltb x y = true <-> rank_lt (SFrank x) (SFrank y)).
Proof.
  intros Hx Hy. unfold SFltb, SFcompare, rank_lt.
  destruct x as [sx|[|]| |[|] mx ex], y as [sy|[|]| |[|] my ey];
    try contradiction; cbn [SFrank];
    try (split; [discriminate|intros H; exfalso; lia]);
    try (split; [intros _; lia|reflexivity]).
  - change (Pos.compare_cont Eq mx my) with (mx ?= my)%positive.
    destruct (Z.compare_spec ex ey) as [E|E|E];
      [destruct (Pos.compare_spec mx my) as [M|M|M]; cbn [CompOpp]| |];
      split; try discriminate; try reflexivity; intros H; try lia; exfalso; lia.
  - change (Pos.compare_cont Eq mx my) with (mx ?= my)%positive.
    destruct (Z.compare_spec ex ey) as [E|E|E];
      [destruct (Pos.compare_spec mx my) as [M|M|M]| |];
      split; try discriminate; try reflexivity; intros H; try lia; exfalso; lia.
Qed.

Lemma rank_lt_asym p q : rank_lt p q -> ~ rank_lt q p.
Proof. destruct p as [[a1 a2] a3], q as [[b1 b2] b3]. unfold rank_lt. lia. Qed.

Lemma rank_lt_cotrans p q r : rank_lt p r -> rank_lt p q \/ rank_lt q r.
Proof.
  destruct p as [[a1 a2] a3], q as [[b1 b2] b3], r as [[c1 c2] c3]. unfold rank_lt. lia.
Qed.

Lemma not_nan_spec x : is_nan x = false -> Prim2SF x <> S754_nan.
Proof.
  unfold is_nan. rewrite eqb_spec. intros H E. rewrite E in H. discriminate H.
Qed.

Lemma ltb_not_nan x y : (x <? y) = true -> is_nan x = false /\ is_nan y = false.
Proof.
  unfold is_nan. rewrite ltb_spec, !eqb_spec. unfold SFltb, SFeqb.
  destruct (Prim2SF x) as [sx|[|]| |[|] mx ex], (Prim2SF y) as [sy|[|]| |[|] my ey];
    cbn; try discriminate; intros _; rewrite ?Z.compare_refl, ?Pos.compare_cont_refl;
    split; reflexivity.
Qed.

(** [<] on floats is asymmetric. *)
Lemma ltb_asym x y : (x <? y) = true -> (y <? x) = false.
Proof.
  intros H. destruct (ltb_not_nan x y H) as [Nx Ny].
  apply not_nan_spec in Nx. apply not_nan_spec in Ny.
  rewrite ltb_spec in H. apply (SFltb_rank _ _ Nx Ny) in H.
  apply rank_lt_asym in H.
  destruct (y <? x) eqn:E; [|reflexivity].
  rewrite ltb_spec in E. apply (SFltb_rank _ _ Ny Nx) in E. contradiction.
Qed.

(** Below a value or not above it: [x < y] gives [x < z] or [z < y] for
    every [z] that is not a NaN. *)
Lemma ltb_cotrans x y z :
  is_nan z = false -> (x <? y) = true -> (x <? z) = true \/ (z <? y) = true.
Proof.
  intros Nz H. destruct (ltb_not_nan x y H) as [Nx Ny].
  apply not_nan_spec in Nx. apply not_nan_spec in Ny. apply not_nan_spec in Nz.
  rewrite !ltb_spec in *. apply (SFltb_rank _ _ Nx Ny) in H.
  destruct (rank_lt_cotrans _ (SFrank (Prim2SF z)) _ H) as [L|L].
  - left. now apply (SFltb_rank _ _ Nx Nz).
  - right. now apply (SFltb_rank _ _ Nz Ny).
Qed.

(** ** [StatisticsReporter]: the best genomes *)

Section BestGenomes.

Variable Genome : Type.
Variable genome_key : Genome -> Z.
Variable fitness : Genome -> float.

Local Abbreviation sorted_desc := (Statistics.sorted_desc Genome fitness).
Local Abbreviation insert_desc := (Statistics.insert_desc Genome fitness).

Lemma insert_desc_perm g l : Permutation (insert_desc g l) (g :: l).
Proof.
  induction l as [|h l IH]; cbn; [reflexivity|].
  destruct (fitness g <? fitness h); [|reflexivity].
  rewrite IH. apply perm_swap.
Qed.

Lemma sorted_desc_perm l : Permutation (sorted_desc l) l.
Proof.
  induction l as [|g l IH]; cbn; [reflexivity|].
  fold (sorted_desc l). rewrite insert_desc_perm. now constructor.
Qed.

Lemma insert_desc_sorted g l :
  is_nan (fitness g) = false ->
  Forall (fun h => is_nan (fitness h) = false) l ->
  StronglySorted (not_less_fit fitness) l ->
  StronglySorted (not_less_fit fitness) (insert_desc g l).
Proof.
  intros Ng Nl S. induction S as [|h l S IH F]; cbn.
  - constructor; constructor.
  - inversion Nl as [|? ? Nh Nl']; subst.
    destruct (fitness g <? fitness h) eqn:E.
    + constructor; [now apply IH|].
      eapply Permutation_Forall; [symmetry; apply insert_desc_perm|].
      constructor; [|exact F]. now apply ltb_asym.
    + constructor; [now constructor|]. constructor; [exact E|].
      rewrite Forall_forall in *. intros x I. unfold not_less_fit.
      destruct (fitness g <? fitness x) eqn:Ex; [|reflexivity].
      destruct (ltb_cotrans _ _ (fitness h) Nh Ex) as [H|H]; [congruence|].
      specialize (F x I). unfold not_less_fit in F. congruence.
Qed.

(** Sorting genomes without NaN fitness puts them in descending order. *)
Lemma sorted_desc_sorted l :
  Forall (fun h => is_nan (fitness h) = false) l ->
  StronglySorted (not_less_fit fitness) (sorted_desc l).
Proof.
  induction 1 as [|g l Ng Nl IH]; cbn; [constructor|].
  fold (sorted_desc l). apply insert_desc_sorted; [exact Ng| |exact IH].
  eapply Permutation_Forall; [symmetry; apply sorted_desc_perm|exact Nl].
Qed.

Lemma slice_to_firstn {A} n (l : list A) : exists k, Statistics.slice_to n l = firstn k l.
Proof. unfold Statistics.slice_to. destruct (n <? 0)%Z; eauto. Qed.

Lemma sorted_app_split {A} (R : A -> A -> Prop) l1 l2 :
  StronglySorted R (l1 ++ l2) ->
  StronglySorted R l1 /\ forall a b, In a l1 -> In b l2 -> R a b.
Proof.
  induction l1 as [|x l1 IH]; cbn; intros S.
  - split; [constructor|intros a b []].
  - inversion S as [|? ? S' F]; subst. destruct (IH S') as [S1 H].
    apply Forall_app in F. destruct F as [F1 F2]. split; [now constructor|].
    intros a b [<-|I] J; [|now apply H]. rewrite Forall_forall in F2. now apply F2.
Qed.

(** [best_genomes(n)] returns the top of the history: the genomes it
    returns come in descending order of fitness, and together with the
    genomes it leaves out they make up [most_fit_genomes], no genome
    returned being less fit than one left out.  For [n >= 0] it returns
    [min(n, len)] genomes; a negative [n] leaves out the [-n] least fit.
    This holds when no recorded fitness is a NaN. *)
Theorem best_genomes_are_the_fittest (self : Statistics.t Genome) (n : Z) :
  Forall (fun g => is_nan (fitness g) = false) (Statistics.most_fit_genomes Genome self) ->
  let best := Statistics.best_genomes Genome fitness self n in
  StronglySorted (not_less_fit fitness) best /\
  (exists rest,
     Permutation (best ++ rest) (Statistics.most_fit_genomes Genome self) /\
     forall g h, In g best -> In h rest -> not_less_fit fitness g h) /\
  ((0 <= n)%Z ->
     length best = Nat.min (Z.to_nat n) (length (Statistics.most_fit_genomes Genome self))) /\
  ((n < 0)%Z ->
     length best = (length (Statistics.most_fit_genomes Genome self) - Z.to_nat (- n))%nat).
Proof.
  intros Hn best.
  pose proof (sorted_desc_sorted _ Hn) as S.
  pose proof (sorted_desc_perm (Statistics.most_fit_genomes Genome self)) as P.
  assert (El : length (sorted_desc (Statistics.most_fit_genomes Genome self)) =
               length (Statistics.most_fit_genomes Genome self))
    by now apply Permutation_length.
  destruct (slice_to_firstn n (sorted_desc (Statistics.most_fit_genomes Genome self)))
    as [k Ek].
  fold (Statistics.best_genomes Genome fitness self n) in Ek. fold best in Ek.
  rewrite <- (firstn_skipn k (sorted_desc (Statistics.most_fit_genomes Genome self))) in S, P.
  rewrite <- Ek in S, P.
  destruct (sorted_app_split _ _ _ S) as [S1 H].
  split; [exact S1|]. split; [eexists; split; [exact P|exact H]|].
  subst best. unfold Statistics.best_genomes, Statistics.slice_to. split; intros Hs.
  - destruct (Z.ltb_spec n 0); [lia|]. now rewrite length_firstn, El.
  - destruct (Z.ltb_spec n 0); [|lia]. rewrite length_firstn, El. lia.
Qed.

(** [best_genome()] raises [IndexError] on an empty history; otherwise it
    returns a recorded genome than which none is fitter (when no recorded
    fitness is a NaN). *)
Theorem best_genome_is_the_fittest (self : Statistics.t Genome) :
  Forall (fun g => is_nan (fitness g) = false) (Statistics.most_fit_genomes Genome self) ->
  (Statistics.most_fit_genomes Genome self = [] ->
     Statistics.best_genome Genome fitness self = inl Statistics.IndexError) /\
  (Statistics.most_fit_genomes Genome self <> [] ->
     exists g,
       Statistics.best_genome Genome fitness self = inr g /\
       In g (Statistics.most_fit_genomes Genome self) /\
       forall h, In h (Statistics.most_fit_genomes Genome self) -> not_less_fit fitness g h).
Proof.
  intros Hn. unfold Statistics.best_genome, Statistics.best_genomes, Statistics.slice_to.
  cbn [Z.ltb Z.compare Z.to_nat Pos.to_nat Pos.iter_op Nat.add].
  pose proof (sorted_desc_sorted _ Hn) as S.
  pose proof (sorted_desc_perm (Statistics.most_fit_genomes Genome self)) as P.
  destruct (sorted_desc (Statistics.most_fit_genomes Genome self)) as [|g r] eqn:E; cbn.
  - split; [reflexivity|]. intros N. apply Permutation_nil in P. contradiction.
  - split.
    + intros E0. rewrite E0 in P. symmetry in P. apply Permutation_nil in P. discriminate.
    + intros _. exists g. split; [reflexivity|]. split.
      * eapply Permutation_in; [exact P|now left].
      * intros h I. apply (Permutation_in _ (Permutation_sym P)) in I.
        inversion S as [|? ? S' F]; subst. destruct I as [<-|I].
        -- unfold not_less_fit. destruct (fitness g <? fitness g) eqn:L; [|reflexivity].
           pose proof (ltb_asym _ _ L). congruence.
        -- rewrite Forall_forall in F. now apply F.
Qed.

(** The dictionary [best_unique] that [best_unique_genomes] fills. *)
Lemma In_set {V} (k k' : NodeKey) (x x' : V) (m : Dict.t V) :
  NoDup (Dict.keys m) -> In (k, x) (Dict.set k' x' m) ->
  (k = k' /\ x = x') \/ (k <> k' /\ In (k, x) m).
Proof.
  intros ND I. apply In_get in I; [|now apply NoDup_keys_set].
  destruct (Z.eq_dec k k') as [->|N].
  - rewrite get_set_same in I. injection I as <-. now left.
  - rewrite get_set_other in I by exact N. right. split; [exact N|now apply get_In].
Qed.

Lemma best_unique_inv (l : list Genome) :
  let m := fold_left (fun m g => Dict.set (genome_key g) g m) l [] in
  NoDup (Dict.keys m) /\
  (forall k g, In (k, g) m -> genome_key g = k /\ last_with_key genome_key l g) /\
  (forall g, In g l -> In (genome_key g) (Dict.keys m)).
Proof.
  induction l as [|g l IH] using rev_ind; cbn zeta.
  - split; [constructor|]. split; [intros k g []|intros g []].
  - rewrite fold_left_app. cbn [fold_left].
    cbn zeta in IH.
    set (m := fold_left (fun m g => Dict.set (genome_key g) g m) l []) in *.
    destruct IH as (ND & Hm & Hk).
    split; [now apply NoDup_keys_set|]. split.
    + intros k h I. apply In_set in I; [|exact ND].
      destruct I as [[-> ->]|[N I]].
      * split; [reflexivity|]. exists l, []. split; [reflexivity|intros ? []].
      * destruct (Hm _ _ I) as [E (l1 & l2 & El & Hl)]. split; [exact E|].
        exists l1, (l2 ++ [g]). split.
        -- rewrite El, <- app_assoc. reflexivity.
        -- intros x Ix. apply in_app_or in Ix. destruct Ix as [Ix|[<-|[]]].
           ++ now apply Hl.
           ++ congruence.
    + intros h I. apply in_app_or in I.
      rewrite keys_set. destruct (mem (genome_key g) (Dict.keys m)) eqn:Em.
      * destruct I as [I|[<-|[]]]; [now apply Hk|now apply mem_In].
      * apply in_or_app. destruct I as [I|[<-|[]]]; [left; now apply Hk|right; now left].
Qed.

Lemma NoDup_firstn {A} k (l : list A) : NoDup l -> NoDup (firstn k l).
Proof.
  intros ND. rewrite <- (firstn_skipn k l) in ND. now apply NoDup_app_remove_r in ND.
Qed.

Lemma In_firstn {A} k (l : list A) x : In x (firstn k l) -> In x l.
Proof.
  intros I. rewrite <- (firstn_skipn k l). apply in_or_app. now left.
Qed.


End BestGenomes.

Lemma best_genomes_are_the_fittest_history :
  Forall (fun g => is_nan (snd g) = false)
    (Statistics.most_fit_genomes (Z * float) Histories.history) /\
  StronglySorted (not_less_fit snd)
    (Statistics.best_genomes (Z * float) snd Histories.history 2) /\
  length (Statistics.best_genomes (Z * float) snd Histories.history 2) = 2%nat.
Proof.
  assert (H : Forall (fun g : Z * float => is_nan (snd g) = false)
                (Statistics.most_fit_genomes (Z * float) Histories.history))
    by (repeat constructor).
  split; [exact H|].
  destruct (best_genomes_are_the_fittest (Z * float) snd Histories.history 2 H)
    as (S & _ & L & _).
  split; [exact S|]. rewrite L by lia. reflexivity.
Defined.

Lemma best_genome_is_the_fittest_history :
  Forall (fun g => is_nan (snd g) = false)
    (Statistics.most_fit_genomes (Z * float) Histories.history) /\
  (Statistics.most_fit_genomes (Z * float) Histories.history <> [] ->
   exists g,
     Statistics.best_genome (Z * float) snd Histories.history = inr g /\
     In g (Statistics.most_fit_genomes (Z * float) Histories.history) /\
     forall h, In h (Statistics.most_fit_genomes (Z * float) Histories.history) ->
               not_less_fit snd g h).
Proof.
  assert (H : Forall (fun g : Z * float => is_nan (snd g) = false)
                (Statistics.most_fit_genomes (Z * float) Histories.history))
    by (repeat constructor).
  split; [exact H|].
  exact (proj2 (best_genome_is_the_fittest (Z * float) snd Histories.history H)).
Defined.


(** ** [StatisticsReporter]: the species tables *)

Lemma max_of_spec l :
  match Statistics.max_of l with
  | None => l = []
  | Some m => In m l /\ forall x, In x l -> (x <= m)%Z
  end.
Proof.
  destruct l as [|x l]; cbn; [reflexivity|].
  revert x. induction l as [|y l IH]; intros x; cbn.
  - split; [now left|]. intros z [<-|[]]. lia.
  - destruct (IH (Z.max x y)) as [I H]. split.
    + destruct I as [E|I]; [|now right; right].
      rewrite <- E. destruct (Z.max_spec x y) as [[_ ->]|[_ ->]]; [right|]; now left.
    + intros z [<-|[<-|J]].
      * specialize (H (Z.max x y) (or_introl eq_refl)). lia.
      * specialize (H (Z.max x y) (or_introl eq_refl)). lia.
      * apply H. now right.
Qed.

Lemma In_union k s keys :
  In k (Statistics.union s keys) <-> In k s \/ In k keys.
Proof.
  unfold Statistics.union. rewrite in_app_iff, filter_In, nodup_In, negb_true_iff, mem_false.
  destruct (in_dec Z.eq_dec k s); tauto.
Qed.

Lemma In_fold_union {V} k (gens : list (Dict.t V)) : forall s,
  In k (fold_left (fun s gen_data => Statistics.union s (Dict.keys gen_data)) gens s) <->
  In k s \/ exists gen_data, In gen_data gens /\ In k (Dict.keys gen_data).
Proof.
  induction gens as [|g gens IH]; intros s; cbn [fold_left].
  - split; [now left|]. intros [I|(g & [] & _)]. exact I.
  - rewrite IH, In_union. split.
    + intros [[I|I]|(g' & I & J)]; [now left| |].
      * right. exists g. split; [now left|exact I].
      * right. exists g'. split; [now right|exact J].
    + intros [I|(g' & [<-|I] & J)]; [now left; left|now left; right|].
      right. now exists g'.
Qed.

Lemma In_range_from_1 m sid :
  In sid (Statistics.range_from_1 m) <-> (1 <= sid <= m)%Z.
Proof.
  unfold Statistics.range_from_1. rewrite in_map_iff. split.
  - intros (n & <- & I). apply in_seq in I. lia.
  - intros H. exists (Z.to_nat sid). split; [lia|]. apply in_seq. lia.
Qed.

Lemma nth_range_from_1 m sid :
  (1 <= sid <= m)%Z ->
  nth_error (Statistics.range_from_1 m) (Z.to_nat (sid - 1)) = Some sid.
Proof.
  intros H. unfold Statistics.range_from_1.
  rewrite nth_error_map, nth_error_seq.
  destruct (Nat.ltb_spec (Z.to_nat (sid - 1)) (Z.to_nat m)); [|lia].
  cbn. f_equal. lia.
Qed.

Section SpeciesTables.

Variable Genome : Type.

(** The largest species key of a history, if it recorded any species. *)
Lemma all_species_max (self : Statistics.t Genome) :
  match Statistics.max_of (Statistics.all_species Genome self) with
  | None =>
      forall gen_data, In gen_data (Statistics.generation_statistics Genome self) ->
                       gen_data = []
  | Some m =>
      (exists gen_data, In gen_data (Statistics.generation_statistics Genome self) /\
                        In m (Dict.keys gen_data)) /\
      forall gen_data sid, In gen_data (Statistics.generation_statistics Genome self) ->
                           In sid (Dict.keys gen_data) -> (sid <= m)%Z
  end.
Proof.
  pose proof (max_of_spec (Statistics.all_species Genome self)) as H.
  unfold Statistics.all_species in *.
  destruct (Statistics.max_of _) as [m|].
  - destruct H as [I H]. split.
    + apply In_fold_union in I. destruct I as [[]|I]. exact I.
    + intros g sid Ig Is. apply H. apply In_fold_union. right. now exists g.
  - intros g Ig. destruct g as [|[k x] g]; [reflexivity|].
    assert (I : In k (@nil Z)); [|destruct I].
    rewrite <- H. apply In_fold_union. right. exists ((k, x) :: g).
    split; [exact Ig|now left].
Qed.

(** [get_species_sizes()] raises [ValueError] when no generation recorded
    a species (in particular on a fresh reporter).  Otherwise, with [m]
    the largest species key ever recorded, it returns one row per
    generation, each of [max(m, 0)] entries, where entry [sid - 1] is the
    number of members recorded for species [sid] in that generation, and
    0 for a species absent from it.  Species with a key below 1 are not
    reported. *)
Theorem species_sizes_table (self : Statistics.t Genome) :
  ((forall gen_data, In gen_data (Statistics.generation_statistics Genome self) ->
                     gen_data = []) ->
   Statistics.get_species_sizes Genome self = inl Statistics.ValueError) /\
  ((exists gen_data, In gen_data (Statistics.generation_statistics Genome self) /\
                     gen_data <> []) ->
   exists m rows,
     Statistics.get_species_sizes Genome self = inr rows /\
     (exists gen_data, In gen_data (Statistics.generation_statistics Genome self) /\
                       In m (Dict.keys gen_data)) /\
     (forall gen_data sid, In gen_data (Statistics.generation_statistics Genome self) ->
                           In sid (Dict.keys gen_data) -> (sid <= m)%Z) /\
     Forall2 (fun gen_data row =>
                length row = Z.to_nat m /\
                forall sid, (1 <= sid <= m)%Z ->
                  nth_error row (Z.to_nat (sid - 1)) =
                  Some (match Dict.get sid gen_data with
                        | Some members => length members
                        | None => O
                        end))
             (Statistics.generation_statistics Genome self) rows).
Proof.
  pose proof (all_species_max self) as H. unfold Statistics.get_species_sizes.
  destruct (Statistics.max_of _) as [m|]; split.
  - intros He. destruct H as [(g & Ig & Im) _]. rewrite (He g Ig) in Im. destruct Im.
  - intros _. destruct H as [Hm Hle]. eexists m, _. split; [reflexivity|].
    split; [exact Hm|]. split; [exact Hle|].
    clear. induction (Statistics.generation_statistics Genome self) as [|g gens IH];
      cbn [map]; constructor; [|exact IH].
    split.
    + unfold Statistics.range_from_1. now rewrite !length_map, length_seq.
    + intros sid Hs. rewrite nth_error_map, nth_range_from_1 by exact Hs. reflexivity.
  - reflexivity.
  - intros (g & Ig & N). now apply H in Ig.
Qed.


End SpeciesTables.

(** ** [StatisticsReporter]: recording a generation *)

Lemma fold_set_fresh {A V} (key : A -> NodeKey) (val : A -> V) (items : list A) :
  forall acc,
    NoDup (Dict.keys acc ++ map key items) ->
    fold_left (fun m a => Dict.set (key a) (val a) m) items acc =
    acc ++ map (fun a => (key a, val a)) items.
Proof.
  induction items as [|a items IH]; intros acc ND; cbn [fold_left map].
  - now rewrite app_nil_r.
  - cbn [map] in ND. rewrite set_append.
    + rewrite IH.
      * rewrite <- app_assoc. reflexivity.
      * unfold Dict.keys in *. rewrite map_app. cbn [map fst].
        rewrite <- app_assoc. exact ND.
    + apply NoDup_remove_2 in ND. intros I. apply ND. apply in_or_app. now left.
Qed.

Lemma dict_of_items {V} (items : list (Z * V)) :
  NoDup (map fst items) -> Statistics.dict_of items = items.
Proof.
  intros ND. unfold Statistics.dict_of.
  rewrite (fold_set_fresh fst snd items []) by exact ND.
  cbn [app]. rewrite <- (map_id items) at 2. apply map_ext. now intros [k v].
Qed.

Section Recording.

Variable Genome : Type.
Variable fitness : Genome -> float.

Lemma member_fitness_values (members : Dict.t Genome) :
  NoDup (Dict.keys members) ->
  Dict.values (Statistics.member_fitness Genome fitness members) =
  map fitness (Dict.values members).
Proof.
  intros ND. unfold Statistics.member_fitness. rewrite dict_of_items.
  - unfold Dict.values. now rewrite !map_map.
  - rewrite map_map. exact ND.
Qed.

Lemma scores_species_stats (species : Dict.t (Dict.t Genome)) :
  NoDup (Dict.keys species) ->
  Forall (fun members => NoDup (Dict.keys members)) (Dict.values species) ->
  Statistics.scores (Statistics.species_stats Genome fitness species) =
  flat_map (fun members => map fitness (Dict.values members)) (Dict.values species).
Proof.
  intros ND F. unfold Statistics.scores, Statistics.species_stats.
  rewrite (fold_set_fresh fst (fun sm => Statistics.member_fitness Genome fitness (snd sm))
             species []) by exact ND.
  cbn [app]. clear ND.
  induction species as [|[sid members] species IH]; [reflexivity|].
  inversion F as [|? ? Hm F']; subst.
  change (Dict.values (Statistics.member_fitness Genome fitness members) ++
          flat_map (fun species_stats => Dict.values species_stats)
            (Dict.values (map (fun sm => (fst sm, Statistics.member_fitness Genome fitness (snd sm)))
                            species)) =
          map fitness (Dict.values members) ++
          flat_map (fun members => map fitness (Dict.values members)) (Dict.values species)).
  rewrite member_fitness_values by exact Hm. f_equal. now apply IH.
Qed.

Lemma fitness_stat_app {E A} (f : list float -> E + A) gens stats :
  Statistics.fitness_stat f (gens ++ [stats]) =
  match Statistics.fitness_stat f gens with
  | inl e => inl e
  | inr l =>
      match f (Statistics.scores stats) with
      | inl e => inl e
      | inr x => inr (l ++ [x])
      end
  end.
Proof.
  induction gens as [|g gens IH]; cbn.
  - now destruct (f (Statistics.scores stats)).
  - destruct (f (Statistics.scores g)); [reflexivity|]. rewrite IH.
    destruct (Statistics.fitness_stat f gens); [reflexivity|].
    now destruct (f (Statistics.scores stats)).
Qed.

(** After [post_evaluate(config, population, species, best_genome)] the
    history of best genomes ends with [best_genome], and
    [get_fitness_stat(f)] gives what it gave before followed by [f]
    applied to the fitnesses of all members of all species of the
    recorded generation, species by species in iteration order; an
    exception of [f] on an earlier generation comes first. *)
Theorem post_evaluate_then_fitness_stat {E A} (self : Statistics.t Genome)
    (species : Dict.t (Dict.t Genome)) (best_genome : Genome) (f : list float -> E + A) :
  NoDup (Dict.keys species) ->
  Forall (fun members => NoDup (Dict.keys members)) (Dict.values species) ->
  let self' := Statistics.post_evaluate Genome fitness self species best_genome in
  Statistics.most_fit_genomes Genome self' =
    Statistics.most_fit_genomes Genome self ++ [best_genome] /\
  length (Statistics.generation_statistics Genome self') =
    S (length (Statistics.generation_statistics Genome self)) /\
  Statistics.get_fitness_stat Genome self' f =
    match Statistics.get_fitness_stat Genome self f with
    | inl e => inl e
    | inr l =>
        match f (flat_map (fun members => map fitness (Dict.values members))
                   (Dict.values species)) with
        | inl e => inl e
        | inr x => inr (l ++ [x])
        end
    end.
Proof.
  intros ND F self'. subst self'. unfold Statistics.post_evaluate, Statistics.get_fitness_stat.
  cbn [Statistics.most_fit_genomes Statistics.generation_statistics].
  split; [reflexivity|]. split; [rewrite length_app; cbn; lia|].
  rewrite fitness_stat_app, scores_species_stats by assumption. reflexivity.
Qed.

End Recording.

Lemma post_evaluate_then_fitness_stat_generation :
  NoDup (Dict.keys Histories.generation) /\
  Forall (fun members => NoDup (Dict.keys members)) (Dict.values Histories.generation) /\
  Statistics.get_fitness_stat (Z * float)
    (Statistics.post_evaluate (Z * float) snd Histories.history Histories.generation
       (12%Z, 4.0))
    Histories.first_score =
  inr [1.5; 1.5; 2.5; 1.5].
Proof.
  assert (ND : NoDup (Dict.keys Histories.generation)).
  { repeat constructor; cbn; intuition discriminate. }
  assert (F : Forall (fun members : Dict.t (Z * float) => NoDup (Dict.keys members))
                (Dict.values Histories.generation)).
  { repeat constructor; cbn; intuition discriminate. }
  split; [exact ND|]. split; [exact F|].
  destruct (post_evaluate_then_fitness_stat (Z * float) snd Histories.history
              Histories.generation (12%Z, 4.0) Histories.first_score ND F) as (_ & _ & E).
  rewrite E. reflexivity.
Defined.
